(** * Jazz-Is-a-Language: the WJD preprocessing pipeline

    A shallow embedding of [src/Preprocess] (config.py, utils.py,
    chord_parser.py, preprocess.py) and the properties of its per-solo
    pipeline: chord parsing, chord alignment, pickup fill, the rhythmic
    grid and the chord-relative pitch.

    Conventions of the embedding.
    - A Python [str] is a [string]; its characters are read as code points
      below 256.
    - A Python [int] is a [Z]; a Python [float] is an IEEE-754 binary64
      value, a [spec_float] with precision 53 and maximal exponent 1024.
    - A call that may raise returns a [result]: [Ok v] or [Raise e].
    - A DataFrame with the default [RangeIndex] is a [list] of rows; the
      label of a row is its position, [df.at[i, col]] is a lookup at [i].
    - A cell holds a value, not a dtype: a missing integer is [None]
      whether pandas shows it as NaN or as [pd.NA]; the MIDI pitch is an
      integer, as in the corpus, also where pandas stores it in a float
      column. *)

From Stdlib Require Import ZArith Lia Ascii String.
From Stdlib Require Import Floats.SpecFloat.
From stdpp Require Import base list strings numbers.

Open Scope Z_scope.

(** ** Python values, exceptions and results *)

Definition f64 : Set := spec_float.

Inductive exn : Set :=
  | AttributeError | TypeError | ValueError | OverflowError
  | ZeroDivisionError | IndexError | KeyError.

Inductive result (A : Type) : Type :=
  | Ok (a : A)
  | Raise (e : exn).
Arguments Ok {A} a.
Arguments Raise {A} e.

Definition bind {A B} (c : result A) (k : A -> result B) : result B :=
  match c with
  | Ok a => k a
  | Raise e => Raise e
  end.

Notation "'do' x <- c ; k" := (bind c (fun x => k))
  (at level 10, x name, c at level 100, k at level 200).

(** The values a cell of the tables, or an argument of a helper, can hold:
    [None], [pd.NA], an int, a float (NaN included) or a str. *)
Inductive pyval : Type :=
  | PyNone
  | PyNA
  | PyInt (z : Z)
  | PyFloat (f : f64)
  | PyStr (s : string).

(** ** Numbers *)

Module Float64.

Definition prec : Z := 53.
Definition emax : Z := 1024.

Definition mul : f64 -> f64 -> f64 := SFmul prec emax.
Definition div : f64 -> f64 -> f64 := SFdiv prec emax.

(** The float nearest to an integer (ties to even); an infinity when the
    integer is out of range. *)
Definition of_Z (z : Z) : f64 := binary_normalize prec emax z 0 false.

(** The float nearest to the quotient [a / b] of two integers, [b <> 0]:
    the quotient is cut to a mantissa, an exponent and the position of
    the remainder, then rounded once. *)
Definition quot (a b : Z) : f64 :=
  let negate := xorb (a <? 0) (b <? 0) in
  if a =? 0 then S754_zero negate
  else
    let '(mz, ez, lz) :=
      SFdiv_core_binary prec emax (Z.abs a) 0 (Z.abs b) 0 in
    binary_round_aux prec emax negate mz ez lz.

Definition is_nan (x : f64) : bool :=
  match x with S754_nan => true | _ => false end.

Definition is_zero (x : f64) : bool :=
  match x with S754_zero _ => true | _ => false end.

(** The integer part of [m * 2^e], towards zero. *)
Definition trunc_pos (m : positive) (e : Z) : Z :=
  match e with
  | Zneg p => Z.pos m / 2 ^ Z.pos p
  | _ => Z.pos m * 2 ^ e
  end.

(** The integer nearest to [m * 2^e], ties to the even one. *)
Definition round_pos (m : positive) (e : Z) : Z :=
  match e with
  | Zneg p =>
      let d := 2 ^ Z.pos p in
      let q := Z.pos m / d in
      let r := Z.pos m mod d in
      match 2 * r ?= d with
      | Lt => q
      | Gt => q + 1
      | Eq => if Z.even q then q else q + 1
      end
  | _ => Z.pos m * 2 ^ e
  end.

Definition with_sign (s : bool) (z : Z) : Z := if s then - z else z.

End Float64.

Module Py.

(** [pd.isna(v)] on a scalar. *)
Definition isna (v : pyval) : bool :=
  match v with
  | PyNone | PyNA => true
  | PyFloat x => Float64.is_nan x
  | PyInt _ | PyStr _ => false
  end.

(** The truth value of [v == 0]; that of [pd.NA == 0] is a TypeError. *)
Definition eq_zero (v : pyval) : result bool :=
  match v with
  | PyInt z => Ok (z =? 0)
  | PyFloat x => Ok (Float64.is_zero x)
  | PyNone | PyStr _ => Ok false
  | PyNA => Raise TypeError
  end.

(** [int(x)] on a float: towards zero. *)
Definition int_of_float (x : f64) : result Z :=
  match x with
  | S754_zero _ => Ok 0
  | S754_finite s m e => Ok (Float64.with_sign s (Float64.trunc_pos m e))
  | S754_infinity _ => Raise OverflowError
  | S754_nan => Raise ValueError
  end.

(** [int(s)] on a str, base 10: blanks around, a sign, then digits, where
    single underscores may sit between two digits. The interpreter's
    limit on the number of digits is not modelled. *)
Definition is_int_space (c : ascii) : bool :=
  let n := Z.of_nat (nat_of_ascii c) in
  ((9 <=? n) && (n <=? 13)) || (n =? 32) || (n =? 133) || (n =? 160).

Fixpoint lskip (s : string) : string :=
  match s with
  | EmptyString => EmptyString
  | String c s' => if is_int_space c then lskip s' else s
  end.

Definition digit_of (c : ascii) : option Z :=
  let n := Z.of_nat (nat_of_ascii c) in
  if (48 <=? n) && (n <=? 57) then Some (n - 48) else None.

(** [prev] tells whether the character before was a digit. After the
    digits only blanks may follow. *)
Fixpoint digits (acc : Z) (prev : bool) (s : string) : option Z :=
  match s with
  | EmptyString => if prev then Some acc else None
  | String c s' =>
      match digit_of c with
      | Some d => digits (10 * acc + d) true s'
      | None =>
          if Ascii.eqb c "_" then
            if prev then
              match s' with
              | String c' _ =>
                  if digit_of c' is Some _ then digits acc false s' else None
              | EmptyString => None
              end
            else None
          else if prev && String.eqb (lskip s) "" then Some acc
          else None
      end
  end.

Definition int_of_str (s : string) : result Z :=
  let parsed :=
    match lskip s with
    | String "-" t => Z.opp <$> digits 0 false t
    | String "+" t => digits 0 false t
    | t => digits 0 false t
    end in
  match parsed with
  | Some z => Ok z
  | None => Raise ValueError
  end.

(** [int(v)]. *)
Definition int (v : pyval) : result Z :=
  match v with
  | PyInt z => Ok z
  | PyFloat x => int_of_float x
  | PyStr s => int_of_str s
  | PyNone | PyNA => Raise TypeError
  end.

(** [round(x)] on a float. *)
Definition round (x : f64) : result Z :=
  match x with
  | S754_zero _ => Ok 0
  | S754_finite s m e => Ok (Float64.with_sign s (Float64.round_pos m e))
  | S754_infinity _ => Raise OverflowError
  | S754_nan => Raise ValueError
  end.

(** An int operand of a float operation is converted first. *)
Definition float_of_int (z : Z) : result f64 :=
  match Float64.of_Z z with
  | S754_infinity _ => Raise OverflowError
  | x => Ok x
  end.

(** [a / b] on two ints. *)
Definition int_truediv (a b : Z) : result f64 :=
  if b =? 0 then Raise ZeroDivisionError
  else
    match Float64.quot a b with
    | S754_infinity _ => Raise OverflowError
    | x => Ok x
    end.

(** [x / y] on two floats: only a zero divisor raises. *)
Definition float_truediv (x y : f64) : result f64 :=
  if Float64.is_zero y then Raise ZeroDivisionError
  else Ok (Float64.div x y).

(** [a / b]. Its caller has excluded [None], [pd.NA] and NaN. *)
Definition truediv (a b : pyval) : result f64 :=
  match a, b with
  | PyInt a, PyInt b => int_truediv a b
  | PyFloat x, PyFloat y => float_truediv x y
  | PyInt a, PyFloat y => do x <- float_of_int a; float_truediv x y
  | PyFloat x, PyInt b => do y <- float_of_int b; float_truediv x y
  | _, _ => Raise TypeError
  end.

(** [x * n], a float by an int. *)
Definition mul_int (x : f64) (n : Z) : result f64 :=
  do y <- float_of_int n; Ok (Float64.mul x y).

End Py.

(** ** utils.py *)

Module Utils.

Definition safe_int (value : pyval) (default : Z) : result Z :=
  if Py.isna value then Ok default
  else
    match Py.int value with
    | Ok z => Ok z
    | Raise ValueError | Raise TypeError => Ok default
    | Raise e => Raise e
    end.

Definition safe_divide (numerator denominator : pyval) (default : f64)
    : result f64 :=
  do zero <- Py.eq_zero denominator;
  if zero || Py.isna numerator || Py.isna denominator then Ok default
  else Py.truediv numerator denominator.

(** [max(min_val, min(max_val, value))] *)
Definition clip_to_range (value min_val max_val : Z) : Z :=
  Z.max min_val (Z.min max_val value).

End Utils.

(** ** Strings *)

Module Str.

(** Characters removed by [str.strip()]: the code points below 256 for
    which [str.isspace] holds. *)
Definition is_space (c : ascii) : bool :=
  let n := Z.of_nat (nat_of_ascii c) in
  ((9 <=? n) && (n <=? 13)) || ((28 <=? n) && (n <=? 32))
  || (n =? 133) || (n =? 160).

Fixpoint lstrip (s : string) : string :=
  match s with
  | EmptyString => EmptyString
  | String c s' => if is_space c then lstrip s' else s
  end.

Fixpoint rstrip (s : string) : string :=
  match s with
  | EmptyString => EmptyString
  | String c s' =>
      match rstrip s' with
      | EmptyString => if is_space c then EmptyString else String c EmptyString
      | t => String c t
      end
  end.

Definition strip (s : string) : string := rstrip (lstrip s).

(** [s[:n]] and [s[n:]] for [n >= 0]. *)
Fixpoint take (n : nat) (s : string) : string :=
  match n, s with
  | S n', String c s' => String c (take n' s')
  | _, _ => EmptyString
  end.

Fixpoint drop (n : nat) (s : string) : string :=
  match n, s with
  | S n', String _ s' => drop n' s'
  | _, _ => s
  end.

(** [x in xs] on a list of strings. *)
Definition mem (x : string) (xs : list string) : bool :=
  existsb (String.eqb x) xs.

(** [xs.index(x)]: position of the first occurrence. *)
Fixpoint index (x : string) (xs : list string) : option nat :=
  match xs with
  | [] => None
  | y :: ys => if String.eqb x y then Some O else S <$> index x ys
  end.

End Str.

(** ** config.py *)

Module Config.

Definition NOTE_NAMES : list string :=
  ["C"; "Db"; "D"; "Eb"; "E"; "F"; "Gb"; "G"; "Ab"; "A"; "Bb"; "B"]%string.

Definition NOTE_NAMES_SHARP : list string :=
  ["C"; "C#"; "D"; "D#"; "E"; "F"; "F#"; "G"; "G#"; "A"; "A#"; "B"]%string.

Definition GRID_PER_BEAT : Z := 12.
Definition GRID_PER_BAR : Z := 48.

(** A dict keeps its insertion order: an association list. *)
Definition CHORD_QUALITY_MAP : list (string * list string) :=
  [ ("Maj", ["j7"; "6"; "69"]);
    ("min", ["-"; "-7"; "-6"]);
    ("dom", ["7"; "79b"; "7913"]);
    ("half-dim", ["m7b5"]) ]%string.

End Config.

(** ** chord_parser.py *)

Module ChordParser.
Import Config.

Definition _is_valid_chord (chord_symbol : string) : bool :=
  negb (String.eqb chord_symbol "NC") && negb (String.eqb chord_symbol "").

(** The root and quality tokens of a (stripped) symbol. *)
Definition has_accidental (chord_symbol : string) : bool :=
  (2 <=? String.length chord_symbol)%nat &&
  match String.get 1 chord_symbol with
  | Some c => (Ascii.eqb c "#" || Ascii.eqb c "b")%char
  | None => false
  end.

Definition root_token (chord_symbol : string) : string :=
  if has_accidental chord_symbol then Str.take 2 chord_symbol
  else Str.take 1 chord_symbol.

Definition quality_token (chord_symbol : string) : string :=
  if has_accidental chord_symbol then Str.drop 2 chord_symbol
  else Str.drop 1 chord_symbol.

(** [root_idx]: 0 unless the root is in one of the two tables. *)
Definition root_index (root : string) : Z :=
  if Str.mem root NOTE_NAMES then
    default 0 (Z.of_nat <$> Str.index root NOTE_NAMES)
  else if Str.mem root NOTE_NAMES_SHARP then
    default 0 (Z.of_nat <$> Str.index root NOTE_NAMES_SHARP)
  else 0.

(** [for idx, key in enumerate(CHORD_QUALITY_MAP)]: the first category
    whose suffix list holds [quality]; 0 when the loop ends without a
    [break]. *)
Fixpoint quality_scan (idx : Z) (entries : list (string * list string))
    (quality : string) : Z :=
  match entries with
  | [] => 0
  | (_, suffixes) :: rest =>
      if Str.mem quality suffixes then idx
      else quality_scan (idx + 1) rest quality
  end.

Definition quality_index (quality : string) : Z :=
  quality_scan 0 CHORD_QUALITY_MAP quality.

(** [parse_chord] on its declared domain, [str]. The dict
    [{'root': r, 'quality': q}] is the pair [(r, q)]. *)
Definition parse_chord (chord_symbol : string) : option (Z * Z) :=
  if negb (_is_valid_chord chord_symbol) then None
  else
    let chord_symbol := Str.strip chord_symbol in
    let root := root_token chord_symbol in
    let quality := quality_token chord_symbol in
    Some (root_index root, quality_index quality).





(** [list(CHORD_QUALITY_MAP).index('dom')] raises when the key is
    missing. *)
Definition calculate_secondary_dominant (target_root : Z)
    : result (Z * Z) :=
  let dominant_root := (target_root + 7) mod 12 in
  match Str.index "dom" (fst <$> CHORD_QUALITY_MAP) with
  | Some quality_dom => Ok (dominant_root, Z.of_nat quality_dom)
  | None => Raise ValueError
  end.

(** The root token as the specification words it: cut from the symbol
    as given, with no stripping. *)
Definition spec_root_token (chord_symbol : string) : string :=
  root_token chord_symbol.

End ChordParser.

(** ** data_loader.py: the three record sets of a solo *)

Module Data.

(** A row of [beats], in the order of [bar, beat]. *)
Record BeatEvent : Type := mkBeat {
  be_beatid : Z;
  be_melid : Z;
  be_bar : Z;
  be_beat : Z;
  be_chord : string;
  be_signature : string;
  be_chorus_id : Z }.

(** A row of [melody], in the order of [eventid]. Pitch is the MIDI
    number, an integer. Onset, duration and beat duration are the cells
    of float columns, NaN when the store has no value. Tatum and division
    are kept as the store gives them. *)
Record MelodyEvent : Type := mkMelody {
  me_eventid : Z;
  me_melid : Z;
  me_pitch : Z;
  me_onset : f64;
  me_duration : f64;
  me_bar : Z;
  me_beat : Z;
  me_tatum : pyval;
  me_division : pyval;
  me_beatdur : f64 }.

Record SoloInfo : Type := mkInfo {
  si_melid : Z;
  si_key : string;
  si_avgtempo : f64;
  si_performer : string;
  si_style : string;
  si_title : string }.

(** The dict returned by [load_solo_data]. *)
Record SoloData : Type := mkSolo {
  melody : list MelodyEvent;
  beats : list BeatEvent;
  solo_info : list SoloInfo }.

End Data.

(** ** preprocess.py: the per-solo table *)

Module Frame.
Import Data.

(** The cells a beat row takes from its melody event; all missing (NaN)
    when no event matches. *)
Record MelodyCells : Type := mkCells {
  eventid : option Z;
  pitch : option Z;
  onset : f64;
  duration : f64;
  tatum : pyval;
  division : pyval;
  beatdur : f64 }.

(** One row of the working table. A derived cell is [None] while its
    column is not there yet, or when it holds [pd.NA] or NaN. *)
Record Row : Type := mkRow {
  beatid : Z;
  bar : Z;
  beat : Z;
  signature : string;
  chorus_id : Z;
  cells : MelodyCells;
  info : SoloInfo;
  melid : Z;
  chord : string;
  chord_root : option Z;
  chord_quality : option Z;
  next_chord : option string;
  next_chord_root : option Z;
  next_chord_quality : option Z;
  pos_grid : option Z;
  dur_grid : option Z;
  prev_interval : option Z;
  key_center : option Z;
  key_shift : option Z;
  chord_rel_pitch : option Z }.

Definition set_chord (v : string) (r : Row) : Row :=
  mkRow (beatid r) (bar r) (beat r) (signature r) (chorus_id r) (cells r)
    (info r) (melid r) v (chord_root r) (chord_quality r)
    (next_chord r) (next_chord_root r) (next_chord_quality r)
    (pos_grid r) (dur_grid r) (prev_interval r)
    (key_center r) (key_shift r) (chord_rel_pitch r).

Definition set_chord_root (v : option Z) (r : Row) : Row :=
  mkRow (beatid r) (bar r) (beat r) (signature r) (chorus_id r) (cells r)
    (info r) (melid r) (chord r) v (chord_quality r)
    (next_chord r) (next_chord_root r) (next_chord_quality r)
    (pos_grid r) (dur_grid r) (prev_interval r)
    (key_center r) (key_shift r) (chord_rel_pitch r).

Definition set_chord_quality (v : option Z) (r : Row) : Row :=
  mkRow (beatid r) (bar r) (beat r) (signature r) (chorus_id r) (cells r)
    (info r) (melid r) (chord r) (chord_root r) v
    (next_chord r) (next_chord_root r) (next_chord_quality r)
    (pos_grid r) (dur_grid r) (prev_interval r)
    (key_center r) (key_shift r) (chord_rel_pitch r).

Definition set_next_chord (v : option string) (r : Row) : Row :=
  mkRow (beatid r) (bar r) (beat r) (signature r) (chorus_id r) (cells r)
    (info r) (melid r) (chord r) (chord_root r) (chord_quality r)
    v (next_chord_root r) (next_chord_quality r)
    (pos_grid r) (dur_grid r) (prev_interval r)
    (key_center r) (key_shift r) (chord_rel_pitch r).

Definition set_next_chord_root (v : option Z) (r : Row) : Row :=
  mkRow (beatid r) (bar r) (beat r) (signature r) (chorus_id r) (cells r)
    (info r) (melid r) (chord r) (chord_root r) (chord_quality r)
    (next_chord r) v (next_chord_quality r)
    (pos_grid r) (dur_grid r) (prev_interval r)
    (key_center r) (key_shift r) (chord_rel_pitch r).

Definition set_next_chord_quality (v : option Z) (r : Row) : Row :=
  mkRow (beatid r) (bar r) (beat r) (signature r) (chorus_id r) (cells r)
    (info r) (melid r) (chord r) (chord_root r) (chord_quality r)
    (next_chord r) (next_chord_root r) v
    (pos_grid r) (dur_grid r) (prev_interval r)
    (key_center r) (key_shift r) (chord_rel_pitch r).

Definition set_pos_grid (v : option Z) (r : Row) : Row :=
  mkRow (beatid r) (bar r) (beat r) (signature r) (chorus_id r) (cells r)
    (info r) (melid r) (chord r) (chord_root r) (chord_quality r)
    (next_chord r) (next_chord_root r) (next_chord_quality r)
    v (dur_grid r) (prev_interval r)
    (key_center r) (key_shift r) (chord_rel_pitch r).

Definition set_dur_grid (v : option Z) (r : Row) : Row :=
  mkRow (beatid r) (bar r) (beat r) (signature r) (chorus_id r) (cells r)
    (info r) (melid r) (chord r) (chord_root r) (chord_quality r)
    (next_chord r) (next_chord_root r) (next_chord_quality r)
    (pos_grid r) v (prev_interval r)
    (key_center r) (key_shift r) (chord_rel_pitch r).

Definition set_prev_interval (v : option Z) (r : Row) : Row :=
  mkRow (beatid r) (bar r) (beat r) (signature r) (chorus_id r) (cells r)
    (info r) (melid r) (chord r) (chord_root r) (chord_quality r)
    (next_chord r) (next_chord_root r) (next_chord_quality r)
    (pos_grid r) (dur_grid r) v
    (key_center r) (key_shift r) (chord_rel_pitch r).

Definition set_key_center (v : option Z) (r : Row) : Row :=
  mkRow (beatid r) (bar r) (beat r) (signature r) (chorus_id r) (cells r)
    (info r) (melid r) (chord r) (chord_root r) (chord_quality r)
    (next_chord r) (next_chord_root r) (next_chord_quality r)
    (pos_grid r) (dur_grid r) (prev_interval r)
    v (key_shift r) (chord_rel_pitch r).

Definition set_key_shift (v : option Z) (r : Row) : Row :=
  mkRow (beatid r) (bar r) (beat r) (signature r) (chorus_id r) (cells r)
    (info r) (melid r) (chord r) (chord_root r) (chord_quality r)
    (next_chord r) (next_chord_root r) (next_chord_quality r)
    (pos_grid r) (dur_grid r) (prev_interval r)
    (key_center r) v (chord_rel_pitch r).

Definition set_chord_rel_pitch (v : option Z) (r : Row) : Row :=
  mkRow (beatid r) (bar r) (beat r) (signature r) (chorus_id r) (cells r)
    (info r) (melid r) (chord r) (chord_root r) (chord_quality r)
    (next_chord r) (next_chord_root r) (next_chord_quality r)
    (pos_grid r) (dur_grid r) (prev_interval r)
    (key_center r) (key_shift r) v.

(** [df.at[idx, col]]: a [KeyError] when the label is not in the index. *)
Definition at_get {A} (df : list Row) (idx : nat) (col : Row -> A)
    : result A :=
  match df !! idx with
  | Some r => Ok (col r)
  | None => Raise KeyError
  end.

(** [df.at[idx, col] = v] at a label of the index: the cell is updated in
    place. Every write of the pipeline is at such a label. *)
Definition at_set (df : list Row) (idx : nat) (upd : Row -> Row)
    : list Row :=
  alter upd idx df.

(** [df.iterrows()]: the labels with the rows, read when the loop
    starts. *)
Definition iterrows (df : list Row) : list (nat * Row) :=
  zip (seq 0 (length df)) df.

(** A loop whose body may raise. *)
Fixpoint foldM {S X} (body : S -> X -> result S) (s : S) (xs : list X)
    : result S :=
  match xs with
  | [] => Ok s
  | x :: xs' => do s' <- body s x; foldM body s' xs'
  end.

(** [df.apply(f, axis=1)] where [f] may raise. *)
Fixpoint mapM {X Y} (f : X -> result Y) (xs : list X) : result (list Y) :=
  match xs with
  | [] => Ok []
  | x :: xs' => do y <- f x; do ys <- mapM f xs'; Ok (y :: ys)
  end.

End Frame.

Module Preprocessor.
Import Config Utils ChordParser Data Frame.

(** *** Flatten *)

Definition nan : f64 := S754_nan.

Definition no_cells : MelodyCells :=
  mkCells None None nan nan (PyFloat nan) (PyFloat nan) nan.

Definition cells_of (m : MelodyEvent) : MelodyCells :=
  mkCells (Some (me_eventid m)) (Some (me_pitch m)) (me_onset m)
    (me_duration m) (me_tatum m) (me_division m) (me_beatdur m).

Definition same_beat (b : BeatEvent) (m : MelodyEvent) : bool :=
  (be_bar b =? me_bar m) && (be_beat b =? me_beat m).

(** [df.merge(melody_subset, on=['bar', 'beat'], how='left')]: the beat
    rows in their order, each once per matching melody event, and once
    with missing cells when none matches. *)
Definition merge_one (melody : list MelodyEvent) (b : BeatEvent)
    : list (BeatEvent * MelodyCells) :=
  match List.filter (same_beat b) melody with
  | [] => [(b, no_cells)]
  | ms => (fun m => (b, cells_of m)) <$> ms
  end.

Definition merge_left (beats : list BeatEvent) (melody : list MelodyEvent)
    : list (BeatEvent * MelodyCells) :=
  concat (merge_one melody <$> beats).

Definition flat_row (si : SoloInfo) (melid : Z)
    (bc : BeatEvent * MelodyCells) : Row :=
  let b := bc.1 in
  mkRow (be_beatid b) (be_bar b) (be_beat b) (be_signature b)
    (be_chorus_id b) bc.2 si melid (be_chord b)
    None None None None None None None None None None None.

(** [solo_data['solo_info'][col].iloc[0]] is an [IndexError] on an empty
    record set. *)
Definition _load_and_flatten_solo (solo_data : SoloData) (melid : Z)
    : result (list Row) :=
  let df := merge_left (beats solo_data) (melody solo_data) in
  match solo_info solo_data with
  | [] => Raise IndexError
  | si :: _ => Ok (flat_row si melid <$> df)
  end.

(** *** Chord alignment *)

Definition parse_columns (r : Row) : Row :=
  let parsed := parse_chord (chord r) in
  set_chord_quality (snd <$> parsed) (set_chord_root (fst <$> parsed) r).

(** The body of the forward sweep; the state is [idx_last_chord] and the
    table. *)
Definition align_body (st : nat * list Row) (it : nat * Row)
    : result (nat * list Row) :=
  let '(idx_last_chord, solo_df) := st in
  let '(idx, row) := it in
  let idx_last_chord :=
    if negb (String.eqb (chord row) "") then idx else idx_last_chord in
  do c <- at_get solo_df idx_last_chord chord;
  let solo_df := at_set solo_df idx (set_chord c) in
  do r <- at_get solo_df idx_last_chord chord_root;
  let solo_df := at_set solo_df idx (set_chord_root r) in
  do q <- at_get solo_df idx_last_chord chord_quality;
  let solo_df := at_set solo_df idx (set_chord_quality q) in
  Ok (idx_last_chord, solo_df).

(** The body of the backward sweep; the state is [cur_chord],
    [idx_next_chord] and the table. *)
Definition lookahead_body (st : string * nat * list Row) (it : nat * Row)
    : result (string * nat * list Row) :=
  let '(cur_chord, idx_next_chord, solo_df) := st in
  let '(idx, row) := it in
  let '(cur_chord, idx_next_chord) :=
    if negb (String.eqb (chord row) cur_chord)
    then (chord row, S idx) else (cur_chord, idx_next_chord) in
  do c <- at_get solo_df idx_next_chord chord;
  let solo_df := at_set solo_df idx (set_next_chord (Some c)) in
  do r <- at_get solo_df idx_next_chord chord_root;
  let solo_df := at_set solo_df idx (set_next_chord_root r) in
  do q <- at_get solo_df idx_next_chord chord_quality;
  let solo_df := at_set solo_df idx (set_next_chord_quality q) in
  Ok (cur_chord, idx_next_chord, solo_df).

(** [solo_df.iloc[-1]] is an [IndexError] on an empty table. *)
Definition _align_chords (solo_df : list Row) : result (list Row) :=
  let solo_df := parse_columns <$> solo_df in
  do st <- foldM align_body (O, solo_df) (iterrows solo_df);
  let solo_df := st.2 in
  match list.last solo_df with
  | None => Raise IndexError
  | Some last_row =>
      let cur_chord := chord last_row in
      let idx_next_chord := Nat.pred (length solo_df) in
      do st <- foldM lookahead_body (cur_chord, idx_next_chord, solo_df)
                 (reverse (iterrows solo_df));
      Ok st.2
  end.

(** *** Pickup fill *)

Definition real_chord (r : Row) : bool :=
  negb (String.eqb (chord r) "NC") && negb (String.eqb (chord r) "").

(** [index[mask].min()]: the first label under the mask; NaN, here
    [None], when the mask is empty. *)
Fixpoint index_min (mask : list bool) : option nat :=
  match mask with
  | [] => None
  | true :: _ => Some O
  | false :: rest => S <$> index_min rest
  end.

Definition first_valid (solo_df : list Row) : option nat :=
  index_min (real_chord <$> solo_df).

(** [NOTE_NAMES[i]] for [i >= 0]. *)
Definition note_name (i : Z) : result string :=
  match NOTE_NAMES !! Z.to_nat i with
  | Some name => Ok name
  | None => Raise IndexError
  end.

Definition fill_body (dominant_root dominant_quality : Z)
    (solo_df : list Row) (idx : nat) : result (list Row) :=
  let solo_df := at_set solo_df idx (set_chord_root (Some dominant_root)) in
  let solo_df :=
    at_set solo_df idx (set_chord_quality (Some dominant_quality)) in
  do name <- note_name dominant_root;
  Ok (at_set solo_df idx (set_chord (name ++ "7"))).

(** With no real chord the minimum is NaN: it is not [None], and
    [NaN > 0] is false. With an unresolved root at the first real chord,
    [pd.NA] goes through the secondary dominant and [NOTE_NAMES[pd.NA]]
    is a [TypeError]. *)
Definition _fill_pickup_measures (solo_df : list Row)
    : result (list Row) :=
  match first_valid solo_df with
  | None => Ok solo_df
  | Some first_valid_idx =>
      if (0 <? first_valid_idx)%nat then
        do first_chord_root <- at_get solo_df first_valid_idx chord_root;
        match first_chord_root with
        | None => Raise TypeError
        | Some root =>
            do dom <- calculate_secondary_dominant root;
            foldM (fill_body dom.1 dom.2) solo_df (seq 0 first_valid_idx)
        end
      else Ok solo_df
  end.

(** *** Rhythmic features *)

Definition _calculate_position_grid (beat tatum division : pyval)
    : result Z :=
  do beat <- safe_int beat 1;
  do tatum <- safe_int tatum 1;
  do division <- safe_int division 1;
  let division := if division =? 0 then 1 else division in
  do ratio <- Py.int_truediv (tatum - 1) division;
  do scaled <- Py.mul_int ratio GRID_PER_BEAT;
  do rounded <- Py.round scaled;
  let pos := (beat - 1) * GRID_PER_BEAT + rounded in
  Ok (clip_to_range pos 0 (GRID_PER_BAR - 1)).

Definition _calculate_duration_grid (duration_sec beatdur_sec : pyval)
    : result Z :=
  do skip <-
    (if Py.isna duration_sec || Py.isna beatdur_sec then Ok true
     else Py.eq_zero beatdur_sec);
  if skip then Ok 1
  else
    do ratio <- safe_divide duration_sec beatdur_sec (Float64.of_Z 1);
    do scaled <- Py.mul_int ratio GRID_PER_BEAT;
    do dur_grid <- Py.round scaled;
    Ok (clip_to_range dur_grid 1 GRID_PER_BAR).

Definition _add_rhythmic_features (solo_df : list Row)
    : result (list Row) :=
  do solo_df <-
    mapM (fun row =>
            do pos <- _calculate_position_grid (PyInt (beat row))
                        (tatum (cells row)) (division (cells row));
            Ok (set_pos_grid (Some pos) row)) solo_df;
  mapM (fun row =>
          do dur <- _calculate_duration_grid
                      (PyFloat (duration (cells row)))
                      (PyFloat (beatdur (cells row)));
          Ok (set_dur_grid (Some dur) row)) solo_df.

(** *** Melodic features *)

(** [pitch.diff().fillna(0)]: the difference to the row before, 0 on the
    first row and wherever one of the two pitches is missing. *)
Fixpoint diff_fill (prev : option Z) (rows : list Row) : list Row :=
  match rows with
  | [] => []
  | row :: rest =>
      let d :=
        match prev, pitch (cells row) with
        | Some p0, Some p1 => p1 - p0
        | _, _ => 0
        end in
      set_prev_interval (Some d) row :: diff_fill (pitch (cells row)) rest
  end.

Definition _add_melodic_features (solo_df : list Row) : list Row :=
  diff_fill None solo_df.

(** *** Harmonic features *)

(** [(pitch - chord_root) % 12] is NaN on a missing pitch. *)
Definition rel_pitch (row : Row) : option Z :=
  match chord_root row with
  | Some root => (fun p => (p - root) mod 12) <$> pitch (cells row)
  | None => Some 0
  end.

Definition _add_harmonic_features (solo_df : list Row) : list Row :=
  let key_value :=
    match solo_df with
    | row :: _ => si_key (info row)
    | [] => "C"%string
    end in
  let parsed_key := parse_chord key_value in
  let key_center := default 0 (fst <$> parsed_key) in
  (fun row =>
     set_chord_rel_pitch (rel_pitch row)
       (set_key_shift (Some 0) (set_key_center (Some key_center) row)))
  <$> solo_df.

(** *** Projection and types *)

(** The columns of the output, in the order of [feature_cols]. *)
Record OutRow : Type := mkOut {
  o_eventid : option Z; o_melid : Z; o_beatid : Z;
  o_bar : Z; o_beat : Z; o_chorus_id : Z;
  o_pitch : option Z; o_onset : f64; o_duration : f64;
  o_pos_grid : option Z; o_dur_grid : option Z;
  o_prev_interval : option Z;
  o_chord : string; o_chord_root : option Z; o_chord_quality : option Z;
  o_next_chord : option string; o_next_chord_root : option Z;
  o_next_chord_quality : option Z;
  o_chord_rel_pitch : option Z; o_key_center : option Z;
  o_key_shift : option Z;
  o_key : string; o_avgtempo : f64; o_performer : string;
  o_style : string; o_title : string; o_signature : string }.

Definition select_row (r : Row) : OutRow :=
  mkOut (eventid (cells r)) (melid r) (beatid r)
    (bar r) (beat r) (chorus_id r)
    (pitch (cells r)) (onset (cells r)) (duration (cells r))
    (pos_grid r) (dur_grid r) (prev_interval r)
    (chord r) (chord_root r) (chord_quality r)
    (next_chord r) (next_chord_root r) (next_chord_quality r)
    (chord_rel_pitch r) (key_center r) (key_shift r)
    (si_key (info r)) (si_avgtempo (info r)) (si_performer (info r))
    (si_style (info r)) (si_title (info r)) (signature r).

Definition _select_final_features (solo_df : list Row) : list OutRow :=
  select_row <$> solo_df.

(** The casts change the representation of a cell, not its value: the
    integer columns hold integers or nothing, where a NaN becomes [pd.NA],
    both [None] here; the float columns hold floats; the text columns
    hold text. *)
Definition _convert_dtypes (solo_df : list OutRow) : list OutRow :=
  solo_df.

(** *** The pipeline of one solo *)

Definition _process_single_solo (solo_data : SoloData) (melid : Z)
    : result (list OutRow) :=
  do solo_df <- _load_and_flatten_solo solo_data melid;
  do solo_df <- _align_chords solo_df;
  do solo_df <- _fill_pickup_measures solo_df;
  do solo_df <- _add_rhythmic_features solo_df;
  let solo_df := _add_melodic_features solo_df in
  let solo_df := _add_harmonic_features solo_df in
  let solo_df := _select_final_features solo_df in
  let solo_df := _convert_dtypes solo_df in
  Ok solo_df.

End Preprocessor.

(** ** What the two sweeps of the alignment compute

    The forward sweep only needs the chord texts: each row ends with the
    text last stated at or before it. The backward sweep only needs the
    texts the forward sweep left: each row is told the text of the next
    region. [aligned] puts both on the rows; [_align_chords] is shown to
    compute it. *)

Module Sweep.
Import ChordParser Frame.

(** [last] is the text under [idx_last_chord]. *)
Fixpoint carry (last : string) (chords : list string) : list string :=
  match chords with
  | [] => []
  | c :: rest =>
      let c' := if negb (String.eqb c "") then c else last in
      c' :: carry c' rest
  end.

(** The text each row is told by the backward sweep: the text that
    follows the next change of text, and the row's own text in the last
    region. *)
Fixpoint look (chords : list string) : list string :=
  match chords with
  | [] => []
  | c :: rest =>
      let ahead := look rest in
      match rest, ahead with
      | c1 :: _, n1 :: _ =>
          (if negb (String.eqb c c1) then c1 else n1) :: ahead
      | _, _ => c :: ahead
      end
  end.

(** A row given the chord text [c] and its parse. *)
Definition settle (c : string) (r : Row) : Row :=
  set_chord_quality (snd <$> parse_chord c)
    (set_chord_root (fst <$> parse_chord c) (set_chord c r)).

(** A row told that the next chord is [c]. *)
Definition announce (c : string) (r : Row) : Row :=
  set_next_chord_quality (snd <$> parse_chord c)
    (set_next_chord_root (fst <$> parse_chord c)
       (set_next_chord (Some c) r)).

Definition carried (df : list Row) : list string :=
  carry (default ""%string (chord <$> head df)) (chord <$> df).

Definition aligned (df : list Row) : list Row :=
  zip_with announce (look (carried df)) (zip_with settle (carried df) df).

End Sweep.

(** ** Vocabulary of the statements *)

Module Spec.
Import Config ChordParser Data Frame Preprocessor.

(** Root and quality are the parse of the chord text. *)
Definition settled (r : Row) : Prop :=
  chord_root r = fst <$> parse_chord (chord r) /\
  chord_quality r = snd <$> parse_chord (chord r).

(** The first real chord of a table, stated on the rows. *)
Definition first_real (df : list Row) (k : nat) (first : Row) : Prop :=
  df !! k = Some first /\ real_chord first = true /\
  (forall j x, (j < k)%nat -> df !! j = Some x -> real_chord x = false).

(** A pickup row after the fill. *)
Definition pickup (dominant_root dominant_quality : Z) (name : string)
    (r : Row) : Row :=
  set_chord (name ++ "7")
    (set_chord_quality (Some dominant_quality)
       (set_chord_root (Some dominant_root) r)).

(** Equal up to the chord text, the root and the quality. *)
Definition differs_in_harmony_only (r r' : Row) : Prop :=
  r' = set_chord (chord r')
         (set_chord_quality (chord_quality r')
            (set_chord_root (chord_root r') r)).

(** The position of a melody event in the bar grid. *)
Definition beat_position (m : MelodyEvent) : Z * Z :=
  (me_bar m, me_beat m).

(** What identifies a beat event, and the same columns of a row of the
    working table and of the output. The chord text is left out: the
    alignment and the fill rewrite it. *)
Definition beat_columns (b : BeatEvent) : Z * Z * Z * Z * string :=
  (be_beatid b, be_bar b, be_beat b, be_chorus_id b, be_signature b).

Definition row_beat_columns (r : Row) : Z * Z * Z * Z * string :=
  (beatid r, bar r, beat r, chorus_id r, signature r).

Definition out_beat_columns (o : OutRow) : Z * Z * Z * Z * string :=
  (o_beatid o, o_bar o, o_beat o, o_chorus_id o, o_signature o).

(** The melody cells a beat event is joined with: those of the first
    melody event on its bar and beat, missing cells when there is none. *)
Definition joined (melody : list MelodyEvent) (b : BeatEvent)
    : MelodyCells :=
  match List.find (same_beat b) melody with
  | Some m => cells_of m
  | None => no_cells
  end.

End Spec.

(** ** A small solo, used to run the pipeline *)

Module Sample.
Import Data Frame Preprocessor.

Definition beat_event (i : Z) (c : string) : BeatEvent :=
  mkBeat i 1 ((i - 1) / 4 + 1) ((i - 1) mod 4 + 1) c "4/4" 1.

Definition note (i pitch bar beat tatum division : Z) : MelodyEvent :=
  mkMelody i 1 pitch (Float64.quot i 2) (Float64.quot 1 4) bar beat
    (PyInt tatum) (PyInt division) (Float64.quot 1 2).

Definition sample_info : SoloInfo :=
  mkInfo 1 "Bb-maj" (Float64.of_Z 200) "Charlie Parker" "BEBOP"
    "Blues for Alice".

(** Two bars: a pickup of three beats, then C7 and F-7. *)
Definition sample_solo : SoloData :=
  mkSolo
    [note 1 60 1 2 1 1; note 2 62 1 3 3 4; note 3 67 2 1 1 1]
    [beat_event 1 ""; beat_event 2 "NC"; beat_event 3 "";
     beat_event 4 "C7"; beat_event 5 ""; beat_event 6 "F-7";
     beat_event 7 ""; beat_event 8 ""]
    [sample_info].

Definition sample_flat : list Row :=
  flat_row sample_info 1
    <$> merge_left (beats sample_solo) (melody sample_solo).

Definition run {A} (c : result (list A)) : list A :=
  match c with
  | Ok l => l
  | Raise _ => []
  end.

Definition sample_aligned : list Row := run (_align_chords sample_flat).

Definition sample_filled : list Row :=
  run (_fill_pickup_measures sample_aligned).

Definition sample_out : list OutRow :=
  run (_process_single_solo sample_solo 1).

(** Two beats under C7, a note on the first and none on the second. *)
Definition rest_solo : SoloData :=
  mkSolo [note 1 64 1 1 1 1] [beat_event 1 "C7"; beat_event 2 ""]
    [sample_info].

End Sample.

(** ** preprocess.py: the whole data set *)

Module Batch.
Import Data Frame Preprocessor.

(** What [process] reads of the database: the target ids, in ascending
    order, and the three record sets of each id. *)
Record Database : Type := mkDatabase {
  get_target_melids : list Z;
  load_solo_data : Z -> SoloData }.

(** [pd.concat(frames, ignore_index=True)]: a [ValueError] when there is
    no frame to concatenate. *)
Definition concat_frames (frames : list (list OutRow))
    : result (list OutRow) :=
  match frames with
  | [] => Raise ValueError
  | _ => Ok (concat frames)
  end.

Definition process (db : Database) : result (list OutRow) :=
  let melids := get_target_melids db in
  do all_solos <-
    mapM (fun melid => _process_single_solo (load_solo_data db melid) melid)
      melids;
  concat_frames all_solos.

End Batch.

(** ** Vocabulary of the further statements *)

Module Further.
Import Config ChordParser Data Frame Preprocessor.

(** The integer nearest to the fraction [a / d], [d > 0], ties to the
    even one: the rounding of [round] done on exact numbers. *)
Definition half_even (a d : Z) : Z :=
  let q := a / d in
  match 2 * (a mod d) ?= d with
  | Lt => q
  | Gt => q + 1
  | Eq => if Z.even q then q else q + 1
  end.

(** The secondary dominant taken [n] times in a row. *)
Fixpoint dominant_chain (n : nat) (root : Z) : result Z :=
  match n with
  | O => Ok root
  | S n' =>
      do dom <- calculate_secondary_dominant root;
      dominant_chain n' dom.1
  end.

(** The offset of a tatum inside its beat, as the position formula
    computes it: the float quotient, its product by 12, rounded. *)
Definition tatum_offset (tatum division : Z) : result Z :=
  do ratio <- Py.int_truediv (tatum - 1) division;
  do scaled <- Py.mul_int ratio GRID_PER_BEAT;
  Py.round scaled.

(** That offset is the exact rounding of [12 (t - 1) / d] for all
    [1 <= t <= d <= n]. *)
Definition offsets_exact (n : nat) : bool :=
  forallb
    (fun d =>
       forallb
         (fun t =>
            match tatum_offset (Z.of_nat t) (Z.of_nat d) with
            | Ok z => z =? half_even (12 * (Z.of_nat t - 1)) (Z.of_nat d)
            | Raise _ => false
            end)
         (seq 1 d))
    (seq 1 n).

(** The cells of a row that come from the beat event, the melody event,
    the metadata and the solo id. *)
Definition origin (r : Row)
    : Z * Z * Z * string * Z * MelodyCells * SoloInfo * Z :=
  (beatid r, bar r, beat r, signature r, chorus_id r, cells r, info r,
   melid r).

(** The columns of an output row that are read from the database. *)
Definition source_columns (o : OutRow)
    : option Z * Z * Z * Z * Z * Z * option Z * f64 * f64
      * (string * f64 * string * string * string * string) :=
  (o_eventid o, o_melid o, o_beatid o, o_bar o, o_beat o, o_chorus_id o,
   o_pitch o, o_onset o, o_duration o,
   (o_key o, o_avgtempo o, o_performer o, o_style o, o_title o,
    o_signature o)).

(** The interval between two pitch cells, as [diff().fillna(0)] gives
    it. *)
Definition interval (before after : option Z) : Z :=
  match before, after with
  | Some p0, Some p1 => p1 - p0
  | _, _ => 0
  end.

(** The pitch cell of the row before row [i]; [prev] before the first
    row. *)
Definition pitch_before (prev : option Z) (rows : list Row) (i : nat)
    : option Z :=
  match i with
  | O => prev
  | S i0 =>
      match rows !! i0 with
      | Some x => pitch (cells x)
      | None => None
      end
  end.

(** The call returns a value. *)
Definition returns {A} (c : result A) : Prop := exists a, c = Ok a.


(** A solo without beat events, and a database of the sample solo. *)
Definition beatless_solo : SoloData := mkSolo [] [] [Sample.sample_info].

Definition sample_database : Batch.Database :=
  Batch.mkDatabase [1; 2] (fun _ => Sample.sample_solo).

End Further.

(** * Properties *)

(** ** The chord parser *)

Section ChordParserProps.
Import Config ChordParser.

Lemma mem_elem_of (x : string) (xs : list string) :
  Str.mem x xs = true <-> x ∈ xs.
Proof.
  unfold Str.mem. rewrite existsb_exists, list_elem_of_In. split.
  - intros (y & Hy & Heq). apply String.eqb_eq in Heq. by subst.
  - intros Hin. exists x. split; [done | apply String.eqb_refl].
Qed.

Lemma mem_false (x : string) (xs : list string) :
  x ∉ xs -> Str.mem x xs = false.
Proof.
  intros Hn. destruct (Str.mem x xs) eqn:E; [| done].
  apply mem_elem_of in E. contradiction.
Qed.

Lemma index_lt (x : string) (xs : list string) (i : nat) :
  Str.index x xs = Some i -> (i < length xs)%nat.
Proof.
  revert i. induction xs as [| y ys IH]; intros i; simpl; [done |].
  destruct (String.eqb x y).
  - intros [= <-]. lia.
  - destruct (Str.index x ys) as [j |]; simpl; [| done].
    intros [= <-]. specialize (IH j eq_refl). lia.
Qed.

Lemma root_index_range (root : string) : 0 <= root_index root <= 11.
Proof.
  unfold root_index.
  destruct (Str.mem root NOTE_NAMES).
  - destruct (Str.index root NOTE_NAMES) as [i |] eqn:E; simpl; [| lia].
    apply index_lt in E. simpl in E. lia.
  - destruct (Str.mem root NOTE_NAMES_SHARP); [| lia].
    destruct (Str.index root NOTE_NAMES_SHARP) as [i |] eqn:E; simpl;
      [| lia].
    apply index_lt in E. simpl in E. lia.
Qed.


Lemma parse_chord_valid (s : string) :
  _is_valid_chord s = true ->
  parse_chord s =
    Some (root_index (root_token (Str.strip s)),
          quality_index (quality_token (Str.strip s))).
Proof. intros H. unfold parse_chord. by rewrite H. Qed.

Lemma is_valid_chord_spec (s : string) :
  _is_valid_chord s = false <-> s = "NC"%string \/ s = ""%string.
Proof.
  unfold _is_valid_chord.
  destruct (String.eqb_spec s "NC"), (String.eqb_spec s ""); simpl;
    intuition congruence.
Qed.


Lemma root_index_flat (tok : string) (i : nat) :
  NOTE_NAMES !! i = Some tok -> root_index tok = Z.of_nat i.
Proof.
  unfold NOTE_NAMES. intros H.
  do 12 (destruct i as [| i]; [by simplify_eq/= |]). done.
Qed.

Lemma root_index_sharp (tok : string) (i : nat) :
  NOTE_NAMES_SHARP !! i = Some tok -> root_index tok = Z.of_nat i.
Proof.
  unfold NOTE_NAMES_SHARP. intros H.
  do 12 (destruct i as [| i]; [by simplify_eq/= |]). done.
Qed.

Lemma root_index_unknown (tok : string) :
  tok ∉ NOTE_NAMES -> tok ∉ NOTE_NAMES_SHARP -> root_index tok = 0.
Proof.
  intros H1 H2. unfold root_index.
  by rewrite (mem_false _ _ H1), (mem_false _ _ H2).
Qed.

Lemma quality_index_listed (tok name : string) (sufs : list string)
    (i : nat) :
  CHORD_QUALITY_MAP !! i = Some (name, sufs) -> tok ∈ sufs ->
  quality_index tok = Z.of_nat i.
Proof.
  unfold CHORD_QUALITY_MAP. intros H Hin.
  do 4 (destruct i as [| i];
        [simplify_eq/=;
         repeat (apply elem_of_cons in Hin as [-> | Hin]; [done |]);
         by apply elem_of_nil in Hin |]).
  done.
Qed.

Lemma quality_index_unknown (tok : string) :
  (forall name sufs, (name, sufs) ∈ CHORD_QUALITY_MAP -> tok ∉ sufs) ->
  quality_index tok = 0.
Proof.
  intros H. unfold quality_index, CHORD_QUALITY_MAP. cbn [quality_scan].
  rewrite !mem_false; [done | | | |];
    eapply H; unfold CHORD_QUALITY_MAP;
    repeat first [apply list_elem_of_here | apply list_elem_of_further].
Qed.

(** C3, as amended. For every symbol that is not ['NC'] or empty, with
    the root token and the quality token cut from the symbol after its
    leading and trailing blanks are removed: the root is the position of
    the root token in the flat-spelled or in the sharp-spelled table, and
    0 when it is in neither; the quality is the position of the category
    whose suffix list holds the quality token, and 0 when no list holds
    it. In particular "Ebj7" gives (3, 0), "F-7" gives (5, 1), "Bb7913"
    gives (10, 2) and "Gm7b5" gives (7, 3). *)
Theorem parse_chord_documented :
  (forall s : string,
     _is_valid_chord s = true ->
     let root := root_token (Str.strip s) in
     let quality := quality_token (Str.strip s) in
     exists r q : Z,
       parse_chord s = Some (r, q) /\
       (forall i, NOTE_NAMES !! i = Some root -> r = Z.of_nat i) /\
       (forall i, NOTE_NAMES_SHARP !! i = Some root -> r = Z.of_nat i) /\
       (root ∉ NOTE_NAMES -> root ∉ NOTE_NAMES_SHARP -> r = 0) /\
       (forall i name sufs,
          CHORD_QUALITY_MAP !! i = Some (name, sufs) ->
          quality ∈ sufs -> q = Z.of_nat i) /\
       ((forall name sufs,
           (name, sufs) ∈ CHORD_QUALITY_MAP -> quality ∉ sufs) ->
        q = 0)) /\
  parse_chord "Ebj7" = Some (3, 0) /\
  parse_chord "F-7" = Some (5, 1) /\
  parse_chord "Bb7913" = Some (10, 2) /\
  parse_chord "Gm7b5" = Some (7, 3).
Proof.
  split; [| by vm_compute].
  intros s Hvalid root quality.
  exists (root_index root), (quality_index quality).
  split; [by apply parse_chord_valid |].
  split; [intros i Hi; by apply root_index_flat |].
  split; [intros i Hi; by apply root_index_sharp |].
  split; [apply root_index_unknown |].
  split; [intros i name sufs Hi Hin; by eapply quality_index_listed |].
  apply quality_index_unknown.
Qed.

Lemma parse_chord_documented_witness :
  exists r q : Z,
    parse_chord " Bb7913 " = Some (r, q) /\ r = 10 /\ q = 2.
Proof.
  destruct (proj1 parse_chord_documented " Bb7913 "%string eq_refl)
    as (r & q & Hparse & Hflat & _ & _ & Hquality & _).
  exists r, q. split; [exact Hparse |]. split.
  - apply (Hflat 10%nat). reflexivity.
  - apply (Hquality 2%nat "dom"%string ["7"; "79b"; "7913"]%string).
    + reflexivity.
    + apply list_elem_of_further, list_elem_of_further, list_elem_of_here.
Defined.

(** C3 as stated fails: with the tokens cut from the symbol as given,
    the root token of " D7" is a blank, which is in neither table, yet
    the root is 2 and not 0, since the symbol is stripped first. *)
Lemma parse_chord_padded_symbol :
  _is_valid_chord " D7" = true /\
  spec_root_token " D7" = " "%string /\
  (" "%string ∉ NOTE_NAMES) /\ (" "%string ∉ NOTE_NAMES_SHARP) /\
  parse_chord " D7" = Some (2, 2) /\
  (forall q, parse_chord " D7" <> Some (0, q)).
Proof.
  split; [done |]. split; [done |].
  split; [intros H%mem_elem_of; discriminate |].
  split; [intros H%mem_elem_of; discriminate |].
  split; [by vm_compute |].
  intros q. vm_compute. discriminate.
Qed.



Lemma secondary_dominant_value (r : Z) :
  calculate_secondary_dominant r = Ok ((r + 7) mod 12, 2).
Proof. reflexivity. Qed.

End ChordParserProps.

(** ** The rhythmic grid *)

Section GridProps.
Import Config Utils Preprocessor.

(** The examples of the docstrings of utils.py. *)
Example safe_int_examples :
  safe_int (PyFloat (Float64.quot 57 10)) 0 = Ok 5 /\
  safe_int PyNone 0 = Ok 0 /\
  safe_int (PyStr "invalid") (-1) = Ok (-1).
Proof. by vm_compute. Qed.

Example safe_divide_examples :
  safe_divide (PyInt 10) (PyInt 2) (Float64.of_Z 0) = Ok (Float64.of_Z 5) /\
  safe_divide (PyInt 10) (PyInt 0) (Float64.of_Z 0) = Ok (Float64.of_Z 0) /\
  safe_divide PyNone (PyInt 5) (Float64.of_Z 1) = Ok (Float64.of_Z 1).
Proof. by vm_compute. Qed.

Example clip_to_range_examples :
  clip_to_range 5 0 10 = 5 /\ clip_to_range (-5) 0 10 = 0 /\
  clip_to_range 15 0 10 = 10.
Proof. by vm_compute. Qed.

Lemma clip_to_range_bounds (value lo hi : Z) :
  lo <= hi -> lo <= clip_to_range value lo hi <= hi.
Proof. unfold clip_to_range. lia. Qed.

Lemma bind_ok {A B} (c : result A) (k : A -> result B) (b : B) :
  bind c k = Ok b -> exists a, c = Ok a /\ k a = Ok b.
Proof. destruct c as [a | e]; simpl; [eauto | discriminate]. Qed.

(** Whenever a position is returned, it is the clipped formula and lies
    on the grid of one bar. *)
Lemma position_grid_range (beat tatum division : pyval) (pos : Z) :
  _calculate_position_grid beat tatum division = Ok pos ->
  0 <= pos <= 47.
Proof.
  unfold _calculate_position_grid. intros H.
  repeat (apply bind_ok in H as (? & _ & H)).
  injection H as <-. by apply clip_to_range_bounds.
Qed.

Lemma position_grid_example :
  _calculate_position_grid (PyInt 2) (PyInt 3) (PyInt 4) = Ok 18.
Proof. by vm_compute. Qed.

Lemma position_grid_defaults :
  _calculate_position_grid PyNone (PyStr "n/a") (PyInt 0) = Ok 0.
Proof. by vm_compute. Qed.

(** C5 fails on the code at a huge tatum: the float 1e308 is converted
    to an int, the quotient by the division is 1e308 again, its product
    by 12 overflows to infinity and [round] raises. *)
Theorem position_grid_huge_tatum_raises :
  _calculate_position_grid
    (PyInt 1) (PyFloat (Float64.of_Z (10 ^ 308))) (PyInt 1)
  = Raise OverflowError.
Proof. by vm_compute. Qed.

(** [safe_int] itself lets the conversion of an infinity escape. *)
Lemma safe_int_infinity_raises (default : Z) :
  safe_int (PyFloat (S754_infinity false)) default = Raise OverflowError.
Proof. reflexivity. Qed.

Lemma duration_grid_missing (duration_sec beatdur_sec : pyval) :
  Py.isna duration_sec = true \/ Py.isna beatdur_sec = true ->
  _calculate_duration_grid duration_sec beatdur_sec = Ok 1.
Proof.
  unfold _calculate_duration_grid. intros [-> | ->]; simpl; [done |].
  by rewrite orb_true_r.
Qed.

Lemma duration_grid_zero_beat (duration_sec beatdur_sec : pyval) :
  Py.eq_zero beatdur_sec = Ok true ->
  _calculate_duration_grid duration_sec beatdur_sec = Ok 1.
Proof.
  unfold _calculate_duration_grid. intros ->.
  by destruct (Py.isna duration_sec || Py.isna beatdur_sec).
Qed.

Lemma duration_grid_range (duration_sec beatdur_sec : pyval) (dur : Z) :
  _calculate_duration_grid duration_sec beatdur_sec = Ok dur ->
  1 <= dur <= 48.
Proof.
  unfold _calculate_duration_grid. intros H.
  apply bind_ok in H as ([] & _ & H).
  - injection H as <-. lia.
  - repeat (apply bind_ok in H as (? & _ & H)).
    injection H as <-. by apply clip_to_range_bounds.
Qed.

Lemma duration_grid_example :
  _calculate_duration_grid
    (PyFloat (Float64.quot 1 4)) (PyFloat (Float64.quot 1 2)) = Ok 6.
Proof. by vm_compute. Qed.

(** C6 fails on the code at a huge duration: 1e308 divided by a beat of
    half a second overflows to infinity, and [round] raises. *)
Theorem duration_grid_huge_duration_raises :
  _calculate_duration_grid
    (PyFloat (Float64.of_Z (10 ^ 308))) (PyFloat (Float64.quot 1 2))
  = Raise OverflowError.
Proof. by vm_compute. Qed.

End GridProps.

(** ** Chord alignment *)

Section AlignProps.
Import ChordParser Frame Preprocessor Sweep Spec Sample.

Lemma settle_settled (c : string) (r : Row) : settled (settle c r).
Proof. by split. Qed.

Lemma settle_own (r : Row) : settled r -> settle (chord r) r = r.
Proof. intros [H1 H2]. unfold settle. rewrite <- H1, <- H2. by destruct r. Qed.

Lemma settle_from (x r : Row) :
  settled x ->
  set_chord_quality (chord_quality x)
    (set_chord_root (chord_root x) (set_chord (chord x) r))
  = settle (chord x) r.
Proof. intros [-> ->]. done. Qed.

Lemma settle_settle (c c' : string) (r : Row) :
  settle c (settle c' r) = settle c r.
Proof. done. Qed.

Lemma settle_parse_columns (c : string) (r : Row) :
  settle c (parse_columns r) = settle c r.
Proof. done. Qed.

Lemma parse_columns_settled (r : Row) : settled (parse_columns r).
Proof. by split. Qed.

Lemma announce_settled (c : string) (r : Row) :
  settled r -> settled (announce c r).
Proof. done. Qed.

Lemma announce_from (y r : Row) :
  settled y ->
  set_next_chord_quality (chord_quality y)
    (set_next_chord_root (chord_root y)
       (set_next_chord (Some (chord y)) r))
  = announce (chord y) r.
Proof. intros [-> ->]. done. Qed.

Lemma alter_at (f : Row -> Row) (df : list Row) (j : nat) (r : Row) :
  df !! j = Some r -> alter f j df = <[j := f r]> df.
Proof.
  intros H. apply list_eq. intros i.
  rewrite list_lookup_alter. destruct (decide (j = i)) as [<- | Hne].
  - rewrite H. simpl. rewrite list_lookup_insert_eq; [done |].
    by eapply lookup_lt_Some.
  - by rewrite list_lookup_insert_ne.
Qed.

Lemma alter_insert (f : Row -> Row) (df : list Row) (j : nat) (r : Row) :
  (j < length df)%nat -> alter f j (<[j := r]> df) = <[j := f r]> df.
Proof.
  intros H. rewrite (alter_at f _ j r) by by apply list_lookup_insert_eq.
  by rewrite list_insert_insert_eq.
Qed.

Lemma insert_middle (above rest : list Row) (r r' : Row) :
  <[length above := r']> (above ++ r :: rest) = above ++ r' :: rest.
Proof.
  rewrite insert_app_r_alt; [| done]. by rewrite Nat.sub_diag.
Qed.

(** One turn of the forward sweep: the row under the pointer, read
    after the pointer has moved, gives its three cells to the row at
    hand. *)
Lemma align_body_turn (df : list Row) (p j : nat) (x r : Row) :
  df !! j = Some r ->
  df !! (if negb (String.eqb (chord r) "") then j else p) = Some x ->
  align_body (p, df) (j, r) =
    Ok (if negb (String.eqb (chord r) "") then j else p,
        <[j := set_chord_quality (chord_quality x)
                 (set_chord_root (chord_root x) (set_chord (chord x) r))]>
          df).
Proof.
  intros Hj Hp. unfold align_body, at_get, at_set.
  set (p' := if negb (String.eqb (chord r) "") then j else p) in *.
  assert (Hlen : (j < length df)%nat) by by eapply lookup_lt_Some.
  rewrite Hp. simpl.
  rewrite (alter_at _ _ _ _ Hj).
  destruct (decide (p' = j)) as [-> | Hne].
  - assert (x = r) by congruence. subst x.
    rewrite list_lookup_insert_eq by done. simpl.
    rewrite alter_insert by done.
    rewrite list_lookup_insert_eq by done. simpl.
    by rewrite alter_insert.
  - rewrite list_lookup_insert_ne by done. rewrite Hp. simpl.
    rewrite alter_insert by done.
    rewrite list_lookup_insert_ne by done. rewrite Hp. simpl.
    by rewrite alter_insert.
Qed.

Lemma align_loop (todo above : list Row) (p : nat) (x : Row) :
  Forall settled todo ->
  (above ++ todo) !! p = Some x -> settled x ->
  exists p',
    foldM align_body (p, above ++ todo)
      (zip (seq (length above) (length todo)) todo)
    = Ok (p', above ++
              zip_with settle (carry (chord x) (chord <$> todo)) todo).
Proof.
  revert above p x. induction todo as [| r rest IH];
    intros above p x Hall Hp Hx.
  - simpl. eauto.
  - inversion Hall as [| ? ? Hr Hrest]; subst. clear Hall.
    rename Hrest into Hall.
    assert (Hj : (above ++ r :: rest) !! length above = Some r)
      by by apply list_lookup_middle.
    cbn [length seq zip_with foldM fmap list_fmap carry].
    set (x' := if negb (String.eqb (chord r) "") then r else x).
    assert (Hx' : (above ++ r :: rest)
                    !! (if negb (String.eqb (chord r) "")
                        then length above else p) = Some x').
    { unfold x'. by destruct (negb (String.eqb (chord r) "")). }
    assert (Hsx' : settled x').
    { unfold x'. by destruct (negb (String.eqb (chord r) "")). }
    rewrite (align_body_turn _ _ _ _ _ Hj Hx'). cbn [bind].
    rewrite (settle_from _ _ Hsx'), insert_middle.
    assert (Hc : (if negb (String.eqb (chord r) "") then chord r
                  else chord x) = chord x').
    { unfold x'. by destruct (negb (String.eqb (chord r) "")). }
    rewrite Hc.
    set (r' := settle (chord x') r).
    set (p1 := if negb (String.eqb (chord r) "") then length above else p).
    assert (Hnext : exists y, ((above ++ [r']) ++ rest) !! p1 = Some y /\
                              settled y /\ chord y = chord x').
    { rewrite <- app_assoc. simpl.
      destruct (decide (p1 = length above)) as [-> | Hne].
      - exists r'. split; [by apply list_lookup_middle |].
        split; [apply settle_settled | done].
      - exists x. assert (Hpp : p1 = p /\ x' = x).
        { unfold p1, x' in *.
          by destruct (negb (String.eqb (chord r) "")). }
        destruct Hpp as [-> ->]. split; [| done].
        rewrite <- (insert_middle above rest r r').
        by rewrite list_lookup_insert_ne. }
    destruct Hnext as (y & Hy & Hsy & Hcy).
    destruct (IH (above ++ [r']) p1 y Hall Hy Hsy) as (p' & Hfold).
    rewrite length_app, Nat.add_1_r in Hfold. cbn [length] in Hfold.
    exists p'. replace (above ++ r' :: rest) with ((above ++ [r']) ++ rest)
      by by rewrite <- app_assoc.
    rewrite Hfold, Hcy. by rewrite <- app_assoc.
Qed.

(** One turn of the backward sweep. *)
Lemma lookahead_body_turn (df : list Row) (cur : string) (nxt j : nat)
    (y r : Row) :
  df !! j = Some r ->
  df !! (if negb (String.eqb (chord r) cur) then S j else nxt) = Some y ->
  lookahead_body (cur, nxt, df) (j, r) =
    Ok (if negb (String.eqb (chord r) cur) then chord r else cur,
        if negb (String.eqb (chord r) cur) then S j else nxt,
        <[j := set_next_chord_quality (chord_quality y)
                 (set_next_chord_root (chord_root y)
                    (set_next_chord (Some (chord y)) r))]> df).
Proof.
  intros Hj Hn. unfold lookahead_body, at_get, at_set.
  assert (Hlen : (j < length df)%nat) by by eapply lookup_lt_Some.
  destruct (negb (String.eqb (chord r) cur));
    rewrite Hn; simpl; rewrite (alter_at _ _ _ _ Hj).
  - rewrite list_lookup_insert_ne by lia. rewrite Hn. simpl.
    rewrite alter_insert by done.
    rewrite list_lookup_insert_ne by lia. rewrite Hn. simpl.
    by rewrite alter_insert.
  - destruct (decide (nxt = j)) as [-> | Hne].
    + assert (y = r) by congruence. subst y.
      rewrite list_lookup_insert_eq by done. simpl.
      rewrite alter_insert by done.
      rewrite list_lookup_insert_eq by done. simpl.
      by rewrite alter_insert.
    + rewrite list_lookup_insert_ne by done. rewrite Hn. simpl.
      rewrite alter_insert by done.
      rewrite list_lookup_insert_ne by done. rewrite Hn. simpl.
      by rewrite alter_insert.
Qed.

Lemma iterrows_snoc (pre : list Row) (r : Row) :
  zip (seq 0 (length (pre ++ [r]))) (pre ++ [r])
  = zip (seq 0 (length pre)) pre ++ [(length pre, r)].
Proof.
  rewrite length_app, seq_app. simpl.
  rewrite zip_with_app by by rewrite length_seq. done.
Qed.

Lemma look_length (cs : list string) : length (look cs) = length cs.
Proof.
  induction cs as [| c rest IH]; [done |].
  cbn [look]. destruct rest as [| c1 rest']; [done |].
  destruct (look (c1 :: rest')) as [| n1 ahead]; simpl in *; congruence.
Qed.

Lemma look_cons (c c1 n1 : string) (rest ahead : list string) :
  look (c1 :: rest) = n1 :: ahead ->
  look (c :: c1 :: rest)
  = (if negb (String.eqb c c1) then c1 else n1) :: n1 :: ahead.
Proof. intros H. cbn [look] in *. by rewrite H. Qed.

Lemma lookahead_loop (pre : list Row) :
  forall (suf : list Row) (cur : string) (nxt : nat) (y : Row),
  Forall settled pre -> Forall settled suf ->
  head (chord <$> suf) = Some cur ->
  (length pre <= nxt)%nat ->
  (pre ++ zip_with announce (look (chord <$> suf)) suf) !! nxt = Some y ->
  settled y ->
  head (look (chord <$> suf)) = Some (chord y) ->
  exists st,
    foldM lookahead_body
      (cur, nxt, pre ++ zip_with announce (look (chord <$> suf)) suf)
      (reverse (zip (seq 0 (length pre)) pre))
    = Ok st /\
    st.2 = zip_with announce (look (chord <$> (pre ++ suf))) (pre ++ suf).
Proof.
  induction pre as [| r pre IH] using rev_ind;
    intros suf cur nxt y Hpre Hsuf Hcur Hle Hy Hsy Hhead.
  - simpl. eauto.
  - apply Forall_app in Hpre as [Hpre Hr].
    apply Forall_inv in Hr.
    rewrite iterrows_snoc, reverse_snoc. cbn [foldM].
    rewrite length_app in Hle. simpl in Hle.
    destruct suf as [| s suf0]; [done |].
    injection Hcur as Hcur.
    inversion Hsuf as [| ? ? Hs Hsuf0]; subst.
    destruct (look (chord <$> s :: suf0)) as [| h ahead] eqn:Hlook.
    { apply (f_equal length) in Hlook. rewrite look_length in Hlook.
      done. }
    injection Hhead as Hhead. subst h.
    set (suf' := zip_with announce (chord y :: ahead) (s :: suf0)) in *.
    assert (Hj : ((pre ++ [r]) ++ suf') !! length pre = Some r).
    { rewrite <- app_assoc. by apply list_lookup_middle. }
    set (changed := negb (String.eqb (chord r) (chord s))).
    set (y' := if changed then announce (chord y) s else y).
    assert (Hy' : ((pre ++ [r]) ++ suf')
                    !! (if changed then S (length pre) else nxt)
                  = Some y').
    { unfold y'. destruct changed; [| done].
      rewrite lookup_app_r by (rewrite length_app; simpl; lia).
      rewrite length_app. simpl.
      by replace (S (length pre) - (length pre + 1))%nat with O by lia. }
    assert (Hsy' : settled y').
    { unfold y'. destruct changed; [by apply announce_settled | done]. }
    rewrite (lookahead_body_turn _ _ _ _ _ _ Hj Hy'). cbn [bind].
    rewrite (announce_from _ _ Hsy').
    rewrite <- app_assoc. simpl. rewrite insert_middle.
    fold changed.
    assert (Hlook' : look (chord <$> r :: s :: suf0)
                     = chord y' :: chord y :: ahead).
    { rewrite !fmap_cons. rewrite fmap_cons in Hlook.
      rewrite (look_cons _ _ _ _ _ Hlook). fold changed.
      unfold y'. by destruct changed. }
    assert (Hnew : zip_with announce (chord y' :: chord y :: ahead)
                     (r :: s :: suf0)
                   = announce (chord y') r :: suf') by done.
    destruct (IH (r :: s :: suf0) (if changed then chord r else chord s)
                (if changed then S (length pre) else nxt) y')
      as (st & Hfold & Hst).
    + done.
    + constructor; [done | by constructor].
    + simpl. f_equal. unfold changed.
      destruct (String.eqb_spec (chord r) (chord s)); simpl; congruence.
    + destruct changed; lia.
    + rewrite Hlook', Hnew.
      rewrite <- (insert_middle pre suf' r (announce (chord y') r)).
      rewrite list_lookup_insert_ne by (destruct changed; lia).
      rewrite <- Hy'. by rewrite <- app_assoc.
    + done.
    + by rewrite Hlook'.
    + rewrite Hlook', Hnew in Hfold.
      exists st. split; [exact Hfold |].
      rewrite Hst. by rewrite <- app_assoc.
Qed.

Lemma carry_length (last : string) (cs : list string) :
  length (carry last cs) = length cs.
Proof.
  revert last. induction cs as [| c rest IH]; intros last; simpl;
    [done | by rewrite IH].
Qed.

Lemma zip_settle_chords (cs : list string) (df : list Row) :
  length cs = length df -> chord <$> zip_with settle cs df = cs.
Proof.
  revert df. induction cs as [| c rest IH]; intros [| r df] Hlen;
    simpl in *; try done.
  f_equal. apply IH. lia.
Qed.

Lemma zip_settle_settled (cs : list string) (df : list Row) :
  Forall settled (zip_with settle cs df).
Proof.
  revert df. induction cs as [| c rest IH]; intros [| r df]; simpl;
    try done.
  constructor; [apply settle_settled | apply IH].
Qed.

Lemma zip_settle_parsed (cs : list string) (df : list Row) :
  zip_with settle cs (parse_columns <$> df) = zip_with settle cs df.
Proof.
  revert df. induction cs as [| c rest IH]; intros [| r df]; simpl;
    try done.
  by rewrite IH.
Qed.

Lemma carried_length (df : list Row) : length (carried df) = length df.
Proof. unfold carried. by rewrite carry_length, length_fmap. Qed.

(** The two loops compute [aligned]; on an empty table the step
    raises. *)
Lemma align_chords_aligned (df : list Row) :
  df <> [] -> _align_chords df = Ok (aligned df).
Proof.
  intros Hne. destruct df as [| r0 rest]; [done |].
  unfold _align_chords, iterrows.
  destruct (align_loop (parse_columns <$> r0 :: rest) [] 0
              (parse_columns r0)) as (p' & Hfwd).
  { apply Forall_fmap, Forall_forall. intros r _.
    apply parse_columns_settled. }
  { done. }
  { apply parse_columns_settled. }
  change (length []) with O in Hfwd. rewrite app_nil_l in Hfwd.
  rewrite Hfwd. cbn [bind snd]. clear Hfwd p'.
  rewrite app_nil_l, zip_settle_parsed.
  replace (carry (chord (parse_columns r0))
             (chord <$> (parse_columns <$> r0 :: rest)))
    with (carried (r0 :: rest)).
  2:{ unfold carried. simpl. do 2 f_equal.
      rewrite <- list_fmap_compose. done. }
  unfold aligned.
  assert (Hchords : chord <$> zip_with settle (carried (r0 :: rest))
                                (r0 :: rest)
                    = carried (r0 :: rest))
    by apply zip_settle_chords, carried_length.
  assert (Hall := zip_settle_settled (carried (r0 :: rest)) (r0 :: rest)).
  assert (Hlen : length (zip_with settle (carried (r0 :: rest))
                           (r0 :: rest)) = S (length rest)).
  { rewrite length_zip_with, carried_length. simpl. lia. }
  rewrite <- Hchords at 2.
  generalize dependent (zip_with settle (carried (r0 :: rest))
                          (r0 :: rest)).
  intros F _ HallF HlenF.
  destruct F as [| l pre _] using rev_ind; [done |].
  apply Forall_app in HallF as [Hpre Hl]. apply Forall_inv in Hl.
  rewrite last_snoc, iterrows_snoc, reverse_snoc. cbn [foldM].
  rewrite length_app. cbn [length].
  replace (Nat.pred (length pre + 1)) with (length pre) by lia.
  assert (Hj : (pre ++ [l]) !! length pre = Some l)
    by by apply list_lookup_middle.
  assert (Hn : (pre ++ [l])
                 !! (if negb (String.eqb (chord l) (chord l))
                     then S (length pre) else length pre) = Some l)
    by by rewrite String.eqb_refl.
  rewrite (lookahead_body_turn _ _ _ _ _ _ Hj Hn). cbn [bind].
  rewrite String.eqb_refl. simpl negb. cbv iota.
  rewrite (announce_from _ _ Hl), insert_middle.
  destruct (lookahead_loop pre [l] (chord l) (length pre)
              (announce (chord l) l)) as (st & Hfold & Hst);
    try done.
  - by constructor.
  - by apply list_lookup_middle.
  - simpl in Hfold. rewrite Hfold. cbn [bind]. by rewrite Hst.
Qed.

Lemma align_chords_empty : _align_chords [] = Raise IndexError.
Proof. reflexivity. Qed.

Lemma aligned_length (df : list Row) : length (aligned df) = length df.
Proof.
  unfold aligned.
  rewrite !length_zip_with, look_length, carried_length. lia.
Qed.

Lemma aligned_lookup (df : list Row) (i : nat) (r' : Row) :
  aligned df !! i = Some r' ->
  exists n c r,
    carried df !! i = Some c /\ df !! i = Some r /\
    r' = announce n (settle c r).
Proof.
  unfold aligned. intros H.
  apply lookup_zip_with_Some in H as (n & x & -> & _ & Hx).
  apply lookup_zip_with_Some in Hx as (c & r & -> & Hc & Hr).
  eauto 6.
Qed.

(** What [carry] leaves at a position: the last non-empty text at or
    before it, and [last] when there is none. *)
Lemma carry_lookup (cs : list string) :
  forall (last : string) (i : nat) (c' : string),
  carry last cs !! i = Some c' ->
  (forall j c,
     (j <= i)%nat -> cs !! j = Some c -> c <> ""%string ->
     (forall k x, (j < k <= i)%nat -> cs !! k = Some x -> x = ""%string) ->
     c' = c) /\
  ((forall k x, (k <= i)%nat -> cs !! k = Some x -> x = ""%string) ->
   c' = last).
Proof.
  induction cs as [| c0 rest IH]; intros last i c' Hi; [done |].
  cbn [carry] in Hi.
  set (c0' := if negb (String.eqb c0 "") then c0 else last) in *.
  destruct i as [| i]; simpl in Hi.
  - injection Hi as <-. split.
    + intros j c Hj Hc Hne _. assert (j = O) by lia. subst j.
      simpl in Hc. injection Hc as ->. unfold c0'.
      by destruct (String.eqb_spec c "").
    + intros Hall. specialize (Hall O c0 (Nat.le_refl _) eq_refl).
      subst c0. done.
  - destruct (IH c0' i c' Hi) as [IH1 IH2]. split.
    + intros j c Hj Hc Hne Hgap. destruct j as [| j].
      * simpl in Hc. injection Hc as ->.
        rewrite IH2.
        { unfold c0'. by destruct (String.eqb_spec c ""). }
        intros k x Hk Hx. apply (Hgap (S k) x); [lia | done].
      * apply (IH1 j c); [lia | done | done |].
        intros k x Hk Hx. apply (Hgap (S k) x); [lia | done].
    + intros Hall. rewrite IH2.
      * specialize (Hall O c0 (Nat.le_0_l _) eq_refl). subst c0. done.
      * intros k x Hk Hx. apply (Hall (S k) x); [lia | done].
Qed.

(** C1. On a table with at least one row the alignment returns, row
    for row; a row at or after the first non-empty chord text ends with
    the most recent non-empty text at or before it and with the parse of
    that text; a row before it ends with null root and quality. *)
Theorem align_chords_inherits (df : list Row) :
  df <> [] ->
  exists out,
    _align_chords df = Ok out /\ length out = length df /\
    forall i r', out !! i = Some r' ->
      (forall j src,
         (j <= i)%nat -> df !! j = Some src -> chord src <> ""%string ->
         (forall k x, (j < k <= i)%nat -> df !! k = Some x ->
                      chord x = ""%string) ->
         chord r' = chord src /\
         chord_root r' = fst <$> parse_chord (chord src) /\
         chord_quality r' = snd <$> parse_chord (chord src)) /\
      ((forall k x, (k <= i)%nat -> df !! k = Some x ->
                    chord x = ""%string) ->
       chord_root r' = None /\ chord_quality r' = None).
Proof.
  intros Hne. exists (aligned df).
  split; [by apply align_chords_aligned |].
  split; [apply aligned_length |].
  intros i r' Hr'.
  apply aligned_lookup in Hr' as (n & c & r & Hc & Hr & ->).
  unfold carried in Hc.
  apply carry_lookup in Hc as [H1 H2]. split.
  - intros j src Hj Hsrc Hsne Hgap.
    assert (c = chord src) as ->.
    { apply (H1 j); [done | by rewrite list_lookup_fmap, Hsrc | done |].
      intros k x Hk Hx. rewrite list_lookup_fmap in Hx.
      destruct (df !! k) as [xr |] eqn:Hxr; [| done].
      injection Hx as <-. by eapply Hgap. }
    done.
  - intros Hall.
    assert (c = ""%string) as ->.
    { rewrite H2.
      - destruct df as [| r0 rest]; [done |]. simpl.
        by apply (Hall O r0); [lia |].
      - intros k x Hk Hx. rewrite list_lookup_fmap in Hx.
        destruct (df !! k) as [xr |] eqn:Hxr; [| done].
        injection Hx as <-. by eapply Hall. }
    done.
Qed.

Lemma carry_carry (cs : list string) (last : string) :
  carry last (carry last cs) = carry last cs.
Proof.
  revert last. induction cs as [| c rest IH]; intros last; [done |].
  cbn [carry].
  destruct (String.eqb_spec c ""); simpl.
  - destruct (String.eqb_spec last ""); simpl; by rewrite IH.
  - destruct (String.eqb_spec c ""); [done |]. simpl. by rewrite IH.
Qed.

Lemma zip_announce_chords (ns : list string) (l : list Row) :
  length ns = length l -> chord <$> zip_with announce ns l = chord <$> l.
Proof.
  revert l. induction ns as [| n ns IH]; intros [| r l] Hlen;
    simpl in *; try done.
  f_equal. apply IH. lia.
Qed.

Lemma carried_aligned (df : list Row) : carried (aligned df) = carried df.
Proof.
  assert (Hch : chord <$> aligned df = carried df).
  { unfold aligned. rewrite zip_announce_chords.
    - apply zip_settle_chords, carried_length.
    - rewrite look_length, length_zip_with, carried_length. lia. }
  unfold carried at 1. rewrite Hch.
  destruct df as [| r0 rest]; [done |].
  unfold aligned, carried. cbn [head fmap list_fmap option_fmap
    option_map default carry zip_with].
  destruct (look _) as [| n ns] eqn:Hlook.
  { apply (f_equal length) in Hlook. rewrite look_length in Hlook.
    done. }
  simpl.
  destruct (String.eqb_spec (chord r0) ""); simpl.
  - rewrite e. simpl. by rewrite carry_carry.
  - destruct (String.eqb_spec (chord r0) ""); [done |]. simpl.
    by rewrite carry_carry.
Qed.

Lemma realign (ns cs : list string) (df : list Row) :
  zip_with announce ns
    (zip_with settle cs (zip_with announce ns (zip_with settle cs df)))
  = zip_with announce ns (zip_with settle cs df).
Proof.
  revert ns cs. induction df as [| r df IH]; intros [| n ns] [| c cs];
    simpl; try done.
  by rewrite IH.
Qed.

Lemma aligned_aligned (df : list Row) : aligned (aligned df) = aligned df.
Proof.
  unfold aligned at 1. rewrite carried_aligned. unfold aligned.
  apply realign.
Qed.

(** C9. The alignment returns on every table with a row, and run again
    on its own output it returns that output unchanged. *)
Theorem align_chords_idempotent (df : list Row) :
  df <> [] ->
  exists out, _align_chords df = Ok out /\ _align_chords out = Ok out.
Proof.
  intros Hne. exists (aligned df).
  split; [by apply align_chords_aligned |].
  rewrite align_chords_aligned; [by rewrite aligned_aligned |].
  intros H. apply (f_equal length) in H.
  rewrite aligned_length in H. by destruct df.
Qed.

End AlignProps.

(** ** Pickup fill *)

Section FillProps.
Import Config ChordParser Frame Preprocessor Sweep Spec Sample.

Lemma index_min_Some (mask : list bool) (k : nat) :
  index_min mask = Some k <->
  mask !! k = Some true /\
  (forall j b, (j < k)%nat -> mask !! j = Some b -> b = false).
Proof.
  revert k. induction mask as [| b rest IH]; intros k; simpl.
  - split; [done | by intros [? _]].
  - destruct b.
    + split.
      * intros [= <-]. split; [done |]. intros j b Hj. lia.
      * intros [Hk Hlow]. destruct k as [| k]; [done |].
        by specialize (Hlow O true (Nat.lt_0_succ _) eq_refl).
    + rewrite fmap_Some. split.
      * intros (k' & Hrest & ->). apply IH in Hrest as [Hk Hlow].
        split; [done |].
        intros [| j] b Hj Hb; simpl in Hb; [congruence |].
        apply (Hlow j); [lia | done].
      * intros [Hk Hlow]. destruct k as [| k]; [done |].
        exists k. split; [| done]. apply IH. split; [done |].
        intros j b Hj Hb. apply (Hlow (S j)); [lia | done].
Qed.

Lemma index_min_None (mask : list bool) :
  index_min mask = None <->
  (forall j b, mask !! j = Some b -> b = false).
Proof.
  induction mask as [| b rest IH]; simpl.
  - split; [by intros _ j b | done].
  - destruct b.
    + split; [done |]. intros H. by specialize (H O true eq_refl).
    + rewrite fmap_None, IH. split.
      * intros H [| j] b Hb; simpl in Hb; [congruence |].
        by apply (H j).
      * intros H j b Hb. by apply (H (S j)).
Qed.

Lemma first_valid_Some (df : list Row) (k : nat) :
  first_valid df = Some k <-> exists first, first_real df k first.
Proof.
  unfold first_valid, first_real. rewrite index_min_Some. split.
  - intros [Hk Hlow]. rewrite list_lookup_fmap in Hk.
    destruct (df !! k) as [first |] eqn:Hfirst; [| done].
    injection Hk as Hk. exists first. split; [done |]. split; [done |].
    intros j x Hj Hx. apply (Hlow j); [done |].
    by rewrite list_lookup_fmap, Hx.
  - intros (first & Hk & Hreal & Hlow). split.
    + by rewrite list_lookup_fmap, Hk, <- Hreal.
    + intros j b Hj Hb. rewrite list_lookup_fmap in Hb.
      destruct (df !! j) as [x |] eqn:Hx; [| done].
      injection Hb as <-. by eapply Hlow.
Qed.

Lemma first_valid_None (df : list Row) :
  first_valid df = None <->
  (forall j x, df !! j = Some x -> real_chord x = false).
Proof.
  unfold first_valid. rewrite index_min_None. split.
  - intros H j x Hx. apply (H j). by rewrite list_lookup_fmap, Hx.
  - intros H j b Hb. rewrite list_lookup_fmap in Hb.
    destruct (df !! j) as [x |] eqn:Hx; [| done].
    injection Hb as <-. by eapply H.
Qed.

Lemma fill_body_turn (dr dq : Z) (name : string) (df : list Row)
    (j : nat) (r : Row) :
  note_name dr = Ok name -> df !! j = Some r ->
  fill_body dr dq df j = Ok (<[j := pickup dr dq name r]> df).
Proof.
  intros Hname Hj. unfold fill_body, at_set. rewrite Hname. cbn [bind].
  assert (Hlen : (j < length df)%nat) by by eapply lookup_lt_Some.
  rewrite (alter_at _ _ _ _ Hj).
  rewrite alter_insert by done.
  by rewrite alter_insert.
Qed.

Lemma fill_loop (dr dq : Z) (name : string) (todo : list Row) :
  note_name dr = Ok name ->
  forall above rest : list Row,
  foldM (fill_body dr dq) (above ++ todo ++ rest)
    (seq (length above) (length todo))
  = Ok (above ++ (pickup dr dq name <$> todo) ++ rest).
Proof.
  intros Hname. induction todo as [| r todo IH]; intros above rest;
    [done |].
  cbn [length seq foldM app fmap list_fmap].
  rewrite (fill_body_turn dr dq name _ _ r Hname)
    by by apply list_lookup_middle.
  cbn [bind]. rewrite insert_middle.
  specialize (IH (above ++ [pickup dr dq name r]) rest).
  rewrite length_app, Nat.add_1_r, <- app_assoc in IH. simpl in IH.
  rewrite IH. by rewrite <- app_assoc.
Qed.

Lemma note_name_dominant (root : Z) :
  exists name,
    note_name ((root + 7) mod 12) = Ok name /\
    NOTE_NAMES !! Z.to_nat ((root + 7) mod 12) = Some name.
Proof.
  unfold note_name.
  assert (H : (Z.to_nat ((root + 7) mod 12) < length NOTE_NAMES)%nat).
  { simpl. pose proof (Z.mod_pos_bound (root + 7) 12). lia. }
  apply lookup_lt_is_Some in H as [name Hname].
  exists name. by rewrite Hname.
Qed.

(** What the fill returns, case by case. *)
Lemma fill_pickup_none (df : list Row) :
  first_valid df = None -> _fill_pickup_measures df = Ok df.
Proof. intros H. unfold _fill_pickup_measures. by rewrite H. Qed.

Lemma fill_pickup_first (df : list Row) :
  first_valid df = Some O -> _fill_pickup_measures df = Ok df.
Proof. intros H. unfold _fill_pickup_measures. by rewrite H. Qed.

Lemma fill_pickup_unresolved (df : list Row) (k : nat) (first : Row) :
  first_valid df = Some (S k) -> df !! S k = Some first ->
  chord_root first = None ->
  _fill_pickup_measures df = Raise TypeError.
Proof.
  intros H Hk Hroot. unfold _fill_pickup_measures, at_get.
  rewrite H, Hk. simpl. by rewrite Hroot.
Qed.

Lemma fill_pickup_resolved (df : list Row) (k : nat) (first : Row)
    (root : Z) :
  first_valid df = Some (S k) -> df !! S k = Some first ->
  chord_root first = Some root ->
  exists name,
    NOTE_NAMES !! Z.to_nat ((root + 7) mod 12) = Some name /\
    _fill_pickup_measures df =
      Ok ((pickup ((root + 7) mod 12) 2 name <$> take (S k) df)
          ++ drop (S k) df).
Proof.
  intros H Hk Hroot.
  destruct (note_name_dominant root) as (name & Hname & Hlook).
  exists name. split; [done |].
  unfold _fill_pickup_measures, at_get. rewrite H, Hk.
  cbn [Nat.ltb Nat.leb bind]. rewrite Hroot.
  rewrite secondary_dominant_value. cbn [bind fst snd].
  assert (Hlen : (S k < length df)%nat) by by eapply lookup_lt_Some.
  pose proof (fill_loop ((root + 7) mod 12) 2 name (take (S k) df) Hname
                [] (drop (S k) df)) as Hloop.
  rewrite app_nil_l, take_drop, length_take in Hloop.
  replace (S k `min` length df)%nat with (S k) in Hloop by lia.
  exact Hloop.
Qed.

Lemma lookup_filled (f : Row -> Row) (k : nat) (df : list Row) (i : nat) :
  (k <= length df)%nat ->
  ((f <$> take k df) ++ drop k df) !! i
  = if decide (i < k)%nat then f <$> df !! i else df !! i.
Proof.
  intros Hk. destruct (decide (i < k)%nat) as [Hlt | Hge].
  - rewrite lookup_app_l by (rewrite length_fmap, length_take; lia).
    rewrite list_lookup_fmap. by rewrite lookup_take_lt.
  - rewrite lookup_app_r by (rewrite length_fmap, length_take; lia).
    rewrite length_fmap, length_take, lookup_drop. f_equal. lia.
Qed.

Lemma first_real_unique (df : list Row) (k k' : nat) (first first' : Row) :
  first_real df k first -> first_real df k' first' -> k = k'.
Proof.
  intros H H'.
  assert (first_valid df = Some k) by (apply first_valid_Some; eauto).
  assert (first_valid df = Some k') by (apply first_valid_Some; eauto).
  congruence.
Qed.

Lemma differs_in_harmony_only_refl (r : Row) : differs_in_harmony_only r r.
Proof. unfold differs_in_harmony_only. by destruct r. Qed.

(** C10. The fill returns whenever the first real chord, if it comes
    after row 0, has a resolved root; and what it returns has the rows of
    the input, equal to them up to chord, chord_root and chord_quality,
    and equal to them in every cell from the first real chord on (and
    everywhere when there is no real chord). *)
Theorem pickup_fill_frame (df : list Row) :
  ((forall k first,
      first_real df k first -> (0 < k)%nat -> is_Some (chord_root first)) ->
   exists out, _fill_pickup_measures df = Ok out) /\
  (forall out,
     _fill_pickup_measures df = Ok out ->
     length out = length df /\
     (forall i r, df !! i = Some r ->
        exists r', out !! i = Some r' /\ differs_in_harmony_only r r') /\
     (forall k first i r,
        first_real df k first -> (k <= i)%nat -> df !! i = Some r ->
        out !! i = Some r) /\
     ((forall j x, df !! j = Some x -> real_chord x = false) ->
      out = df)).
Proof.
  destruct (first_valid df) as [[| k] |] eqn:Hfirst.
  - rewrite (fill_pickup_first _ Hfirst). split; [eauto |].
    intros out [= <-]. split; [done |].
    split; [intros i r Hr; eauto using differs_in_harmony_only_refl |].
    split; done.
  - destruct (proj1 (first_valid_Some _ _) Hfirst) as (first & Hreal).
    destruct (chord_root first) as [root |] eqn:Hroot.
    + destruct (fill_pickup_resolved _ _ _ _ Hfirst (proj1 Hreal) Hroot)
        as (name & _ & Hfill).
      rewrite Hfill. split; [eauto |].
      intros out [= <-].
      assert (Hlen : (S k <= length df)%nat).
      { apply Nat.lt_le_incl. eapply lookup_lt_Some, Hreal. }
      split.
      { rewrite length_app, length_fmap, length_take, length_drop. lia. }
      split.
      { intros i r Hr. rewrite lookup_filled by done.
        destruct (decide (i < S k)%nat); rewrite Hr; simpl.
        - eexists. split; [done |]. done.
        - eauto using differs_in_harmony_only_refl. }
      split.
      { intros k' first' i r Hreal' Hi Hr.
        assert (k' = S k) as -> by by eapply first_real_unique.
        rewrite lookup_filled by done.
        by destruct (decide (i < S k)%nat); [lia |]. }
      intros Hnone. apply first_valid_None in Hnone. congruence.
    + rewrite (fill_pickup_unresolved _ _ _ Hfirst (proj1 Hreal) Hroot).
      split; [| done].
      intros Hres. destruct (Hres (S k) first Hreal) as [root' Hroot'];
        [lia | congruence].
  - rewrite (fill_pickup_none _ Hfirst). split; [eauto |].
    intros out [= <-]. split; [done |].
    split; [intros i r Hr; eauto using differs_in_harmony_only_refl |].
    split; done.
Qed.

Lemma aligned_settled (df : list Row) : Forall settled (aligned df).
Proof.
  apply Forall_lookup. intros i r' Hr'.
  apply aligned_lookup in Hr' as (n & c & r & _ & _ & ->).
  apply announce_settled, settle_settled.
Qed.

Lemma settled_unreal (r : Row) :
  settled r -> real_chord r = false ->
  chord_root r = None /\ chord_quality r = None.
Proof.
  intros [Hroot Hquality] Hreal. rewrite Hroot, Hquality.
  unfold parse_chord.
  change (_is_valid_chord (chord r)) with (real_chord r).
  by rewrite Hreal.
Qed.

(** C2. After the alignment of a table with at least one row, the fill
    returns, row for row. When the first real chord is at a position
    k > 0 and its text parses to the root r, every row before k has the
    root (r + 7) mod 12, the quality 2 and, as text, the flat-spelled
    name of that root followed by 7. When no row has a real chord, every
    row keeps a null root and quality. *)
Theorem pickup_fill_secondary_dominant (df : list Row) :
  df <> [] ->
  exists aligned_df out,
    _align_chords df = Ok aligned_df /\
    _fill_pickup_measures aligned_df = Ok out /\
    length out = length df /\
    (forall k first r q,
       first_real aligned_df k first -> (0 < k)%nat ->
       parse_chord (chord first) = Some (r, q) ->
       forall i row, (i < k)%nat -> out !! i = Some row ->
         chord_root row = Some ((r + 7) mod 12) /\
         chord_quality row = Some 2 /\
         exists name,
           NOTE_NAMES !! Z.to_nat ((r + 7) mod 12) = Some name /\
           chord row = (name ++ "7")%string) /\
    ((forall j x, aligned_df !! j = Some x -> real_chord x = false) ->
     forall i row, out !! i = Some row ->
       chord_root row = None /\ chord_quality row = None).
Proof.
  intros Hne. exists (aligned df).
  pose proof (aligned_settled df) as Hsettled.
  pose proof (aligned_length df) as Hlength.
  rewrite Forall_lookup in Hsettled.
  destruct (first_valid (aligned df)) as [[| k] |] eqn:Hfirst.
  - exists (aligned df).
    split; [by apply align_chords_aligned |].
    split; [by apply fill_pickup_first |]. split; [done |]. split.
    + intros k first r q Hreal Hk.
      assert (k = O); [| lia].
      apply first_valid_Some in Hfirst as (first0 & Hreal0).
      by eapply first_real_unique.
    + intros Hnone. apply first_valid_None in Hnone. congruence.
  - destruct (proj1 (first_valid_Some _ _) Hfirst)
      as (first & Hk & Hreal & Hlow).
    pose proof (Hsettled _ _ Hk) as [Hroot _].
    rewrite (parse_chord_valid _ Hreal) in Hroot. simpl in Hroot.
    destruct (fill_pickup_resolved _ _ _ _ Hfirst Hk Hroot)
      as (name & Hname & Hfill).
    eexists. split; [by apply align_chords_aligned |].
    split; [exact Hfill |].
    assert (Hlen : (S k <= length (aligned df))%nat).
    { apply Nat.lt_le_incl. by eapply lookup_lt_Some. }
    split.
    { rewrite length_app, length_fmap, length_take, length_drop. lia. }
    split.
    + intros k' first' r q Hreal' Hk' Hparse i row Hi Hrow.
      assert (k' = S k) as ->.
      { eapply first_real_unique; [exact Hreal' |]. by split. }
      assert (first' = first) as ->.
      { destruct Hreal' as [Hk'' _]. congruence. }
      rewrite (parse_chord_valid _ Hreal) in Hparse.
      injection Hparse as Hr _. rewrite Hr in *.
      rewrite lookup_filled in Hrow by done.
      destruct (decide (i < S k)%nat); [| lia].
      destruct (aligned df !! i) as [x |]; [| done].
      injection Hrow as <-. simpl. eauto.
    + intros Hnone. apply first_valid_None in Hnone. congruence.
  - exists (aligned df).
    split; [by apply align_chords_aligned |].
    split; [by apply fill_pickup_none |]. split; [done |]. split.
    + intros k first r q Hreal.
      assert (first_valid (aligned df) = Some k); [| congruence].
      apply first_valid_Some. eauto.
    + intros Hnone i row Hrow.
      apply settled_unreal; [by eapply Hsettled | by eapply Hnone].
Qed.

End FillProps.

(** ** The pipeline of one solo *)

Section PipelineProps.
Import Config ChordParser Data Frame Preprocessor Sweep Spec Sample.

Lemma filter_same_beat_nil (b : BeatEvent) (melody : list MelodyEvent) :
  (be_bar b, be_beat b) ∉ (beat_position <$> melody) ->
  List.filter (same_beat b) melody = [].
Proof.
  induction melody as [| m rest IH]; [done |].
  intros H. rewrite fmap_cons in H.
  apply not_elem_of_cons in H as [Hne Hrest]. simpl.
  destruct (same_beat b m) eqn:Hsame; [| by apply IH].
  unfold same_beat in Hsame. apply andb_true_iff in Hsame as [H1 H2].
  apply Z.eqb_eq in H1, H2. unfold beat_position in Hne. congruence.
Qed.

Lemma merge_one_length (b : BeatEvent) (melody : list MelodyEvent) :
  NoDup (beat_position <$> melody) ->
  length (merge_one melody b) = 1%nat.
Proof.
  unfold merge_one. induction melody as [| m rest IH]; [done |].
  intros H. rewrite fmap_cons in H.
  apply list.NoDup_cons in H as [Hfresh Hnodup]. simpl.
  destruct (same_beat b m) eqn:Hsame; [| by apply IH].
  rewrite filter_same_beat_nil; [done |].
  unfold same_beat in Hsame. apply andb_true_iff in Hsame as [H1 H2].
  apply Z.eqb_eq in H1, H2. unfold beat_position in Hfresh.
  by rewrite H1, H2.
Qed.

Lemma merge_left_length (beats : list BeatEvent)
    (melody : list MelodyEvent) :
  NoDup (beat_position <$> melody) ->
  length (merge_left beats melody) = length beats.
Proof.
  intros Hnodup. unfold merge_left.
  induction beats as [| b rest IH]; [done |].
  rewrite fmap_cons. simpl. rewrite length_app, IH.
  by rewrite merge_one_length.
Qed.

Lemma mapM_length {X Y} (f : X -> result Y) (xs : list X) (ys : list Y) :
  mapM f xs = Ok ys -> length ys = length xs.
Proof.
  revert ys. induction xs as [| x xs IH]; intros ys; simpl.
  - by intros [= <-].
  - destruct (f x) as [y | e]; simpl; [| done].
    destruct (mapM f xs) as [ys' | e]; simpl; [| done].
    intros [= <-]. simpl. f_equal. by apply IH.
Qed.

Lemma diff_fill_length (prev : option Z) (rows : list Row) :
  length (diff_fill prev rows) = length rows.
Proof.
  revert prev. induction rows as [| r rows IH]; intros prev; simpl;
    [done | by rewrite IH].
Qed.

Lemma align_chords_length (df out : list Row) :
  _align_chords df = Ok out -> length out = length df.
Proof.
  destruct df as [| r rest]; [done |].
  rewrite align_chords_aligned by done. intros [= <-].
  apply aligned_length.
Qed.

Lemma fill_pickup_length (df out : list Row) :
  _fill_pickup_measures df = Ok out -> length out = length df.
Proof.
  destruct (first_valid df) as [[| k] |] eqn:Hfirst.
  - rewrite (fill_pickup_first _ Hfirst). by intros [= <-].
  - destruct (proj1 (first_valid_Some _ _) Hfirst) as (first & Hk & _).
    assert (Hlen : (S k < length df)%nat) by by eapply lookup_lt_Some.
    destruct (chord_root first) as [root |] eqn:Hroot.
    + destruct (fill_pickup_resolved _ _ _ _ Hfirst Hk Hroot)
        as (name & _ & ->).
      intros [= <-].
      rewrite length_app, length_fmap, length_take, length_drop. lia.
    + by rewrite (fill_pickup_unresolved _ _ _ Hfirst Hk Hroot).
  - rewrite (fill_pickup_none _ Hfirst). by intros [= <-].
Qed.

Lemma rhythmic_length (df out : list Row) :
  _add_rhythmic_features df = Ok out -> length out = length df.
Proof.
  unfold _add_rhythmic_features. intros H.
  apply bind_ok in H as (mid & Hmid & Hout).
  apply mapM_length in Hmid, Hout. congruence.
Qed.

(** The rest of the pipeline, after the flattening. *)
Lemma process_single_solo_stages (solo_data : SoloData) (melid : Z)
    (out : list OutRow) :
  _process_single_solo solo_data melid = Ok out ->
  exists flat aligned_df filled rhythmic,
    _load_and_flatten_solo solo_data melid = Ok flat /\
    _align_chords flat = Ok aligned_df /\
    _fill_pickup_measures aligned_df = Ok filled /\
    _add_rhythmic_features filled = Ok rhythmic /\
    out = _select_final_features
            (_add_harmonic_features (_add_melodic_features rhythmic)).
Proof.
  unfold _process_single_solo. intros H.
  apply bind_ok in H as (flat & Hflat & H).
  apply bind_ok in H as (aligned_df & Haligned & H).
  apply bind_ok in H as (filled & Hfilled & H).
  apply bind_ok in H as (rhythmic & Hrhythmic & H).
  injection H as <-. eauto 10.
Qed.

Lemma flatten_length (solo_data : SoloData) (melid : Z) (df : list Row) :
  NoDup (beat_position <$> melody solo_data) ->
  _load_and_flatten_solo solo_data melid = Ok df ->
  length df = length (beats solo_data).
Proof.
  intros Hnodup. unfold _load_and_flatten_solo.
  destruct (solo_info solo_data) as [| si rest]; [done |].
  intros [= <-]. rewrite length_fmap. by apply merge_left_length.
Qed.

(** C7, as amended. In every row of the output of a solo,
    chord_rel_pitch is 0 when chord_root is not resolved; it is
    (pitch - chord_root) mod 12, an integer in 0..11, when chord_root is
    resolved and the row has a pitch; and it is null when chord_root is
    resolved and the pitch is missing. *)
Theorem chord_rel_pitch_value (solo_data : SoloData) (melid : Z)
    (out : list OutRow) (row : OutRow) :
  _process_single_solo solo_data melid = Ok out ->
  row ∈ out ->
  match o_chord_root row, o_pitch row with
  | None, _ => o_chord_rel_pitch row = Some 0
  | Some root, Some p =>
      o_chord_rel_pitch row = Some ((p - root) mod 12) /\
      0 <= (p - root) mod 12 <= 11
  | Some root, None => o_chord_rel_pitch row = None
  end.
Proof.
  intros Hout Hrow.
  apply process_single_solo_stages in Hout
    as (flat & aligned_df & filled & rhythmic & _ & _ & _ & _ & ->).
  unfold _select_final_features, _add_harmonic_features in Hrow.
  apply list_elem_of_fmap in Hrow as (r1 & -> & Hr1).
  apply list_elem_of_fmap in Hr1 as (r & -> & _).
  simpl. unfold rel_pitch.
  destruct (chord_root r) as [root |]; [| done].
  destruct (pitch (cells r)) as [p |]; simpl; [| done].
  split; [done |].
  pose proof (Z.mod_pos_bound (p - root) 12). lia.
Qed.

End PipelineProps.

(** ** The statements at work on the sample solo *)

Section Witnesses.
Import Config ChordParser Data Frame Preprocessor Sweep Spec Sample.

(** Names the row at position [i] of a concrete table and computes it. *)
Ltac row_at l i x H :=
  destruct (l !! i) as [x |] eqn:H; [| by vm_compute in H];
  let Hsame := fresh "Hsame" in
  assert (Hsame : Some x = l !! i) by (by rewrite H);
  vm_compute in Hsame; injection Hsame as ->.

Lemma sample_flat_rows : sample_flat <> [].
Proof. by vm_compute. Defined.

Lemma sample_aligned_run : _align_chords sample_flat = Ok sample_aligned.
Proof. by vm_compute. Defined.

Lemma sample_filled_run :
  _fill_pickup_measures sample_aligned = Ok sample_filled.
Proof. by vm_compute. Defined.

Lemma sample_out_run : _process_single_solo sample_solo 1 = Ok sample_out.
Proof. by vm_compute. Defined.

(** Row 4 of the sample has no chord text of its own and inherits "C7"
    from row 3. *)
Lemma align_chords_inherits_witness :
  exists out r',
    _align_chords sample_flat = Ok out /\ out !! 4%nat = Some r' /\
    chord r' = "C7"%string /\
    chord_root r' = Some 0 /\ chord_quality r' = Some 2.
Proof.
  destruct (align_chords_inherits sample_flat sample_flat_rows)
    as (out & Hrun & Hlen & Hrows).
  assert (Hsome : is_Some (out !! 4%nat)).
  { apply lookup_lt_is_Some. rewrite Hlen. vm_compute. lia. }
  destruct Hsome as [r' Hr'].
  exists out, r'. split; [exact Hrun |]. split; [exact Hr' |].
  destruct (Hrows 4%nat r' Hr') as [Hstated _].
  row_at sample_flat 3%nat src Hsrc.
  destruct (Hstated 3%nat _ ltac:(lia) Hsrc ltac:(discriminate))
    as (Htext & Hroot & Hquality).
  - intros k x Hk Hx. assert (k = 4%nat) as -> by lia.
    vm_compute in Hx. by injection Hx as <-.
  - split; [exact Htext |]. split; [exact Hroot | exact Hquality].
Defined.

Lemma align_chords_idempotent_witness :
  exists out,
    _align_chords sample_flat = Ok out /\ _align_chords out = Ok out.
Proof. exact (align_chords_idempotent sample_flat sample_flat_rows). Defined.

Lemma sample_first_real :
  exists first,
    first_real sample_aligned 3 first /\
    parse_chord (chord first) = Some (0, 2).
Proof.
  row_at sample_aligned 3%nat first_row Hfirst.
  eexists. split.
  - split; [exact Hfirst |]. split; [reflexivity |].
    intros j x Hj Hx.
    destruct j as [| [| [| j]]]; [| | | lia];
      vm_compute in Hx; by injection Hx as <-.
  - reflexivity.
Defined.

(** The first real chord of the sample is C7 at row 3: the three pickup
    rows get G7. *)
Lemma pickup_fill_secondary_dominant_witness :
  exists aligned_df out row,
    _align_chords sample_flat = Ok aligned_df /\
    _fill_pickup_measures aligned_df = Ok out /\
    out !! 0%nat = Some row /\
    chord_root row = Some 7 /\ chord_quality row = Some 2 /\
    chord row = "G7"%string.
Proof.
  destruct (pickup_fill_secondary_dominant sample_flat sample_flat_rows)
    as (aligned_df & out & Halign & Hfill & Hlen & Hpickup & _).
  rewrite sample_aligned_run in Halign. injection Halign as <-.
  assert (Hsome : is_Some (out !! 0%nat)).
  { apply lookup_lt_is_Some. rewrite Hlen. vm_compute. lia. }
  destruct Hsome as [row Hrow].
  exists sample_aligned, out, row.
  split; [exact sample_aligned_run |]. split; [exact Hfill |].
  split; [exact Hrow |].
  destruct sample_first_real as (first & Hreal & Hparse).
  destruct (Hpickup 3%nat first 0 2 Hreal ltac:(lia) Hparse
              0%nat row ltac:(lia) Hrow)
    as (Hroot & Hquality & name & Hname & Htext).
  vm_compute in Hname. injection Hname as <-.
  split; [exact Hroot |]. split; [exact Hquality | exact Htext].
Defined.

(** On the sample the fill returns, and row 5, after the first real
    chord, comes back as it was. *)
Lemma pickup_fill_frame_witness :
  exists out r,
    _fill_pickup_measures sample_aligned = Ok out /\
    length out = length sample_aligned /\
    sample_aligned !! 5%nat = Some r /\ out !! 5%nat = Some r.
Proof.
  destruct (pickup_fill_frame sample_aligned) as [_ Hframe].
  destruct (Hframe sample_filled sample_filled_run)
    as (Hlen & _ & Hkeep & _).
  destruct (sample_aligned !! 5%nat) as [r |] eqn:Hr;
    [| by vm_compute in Hr].
  exists sample_filled, r.
  split; [exact sample_filled_run |]. split; [exact Hlen |].
  split; [reflexivity |].
  destruct sample_first_real as (first & Hreal & _).
  apply (Hkeep 3%nat first 5%nat r Hreal); [lia | exact Hr].
Defined.

Lemma sample_melody_distinct :
  NoDup (beat_position <$> melody sample_solo).
Proof. refine (bool_decide_unpack _ _). vm_compute. exact I. Defined.

(** Row 1 of the sample: pitch 60 over G7. *)
Lemma chord_rel_pitch_value_witness :
  exists row,
    row ∈ sample_out /\
    o_pitch row = Some 60 /\ o_chord_root row = Some 7 /\
    o_chord_rel_pitch row = Some 5.
Proof.
  row_at sample_out 1%nat row Hrow.
  eexists. split; [by eapply list_elem_of_lookup_2 |].
  split; [reflexivity |]. split; [reflexivity |].
  exact (proj1 (chord_rel_pitch_value sample_solo 1 sample_out _
                  sample_out_run (list_elem_of_lookup_2 _ _ _ Hrow))).
Defined.

(** C7 as stated fails: a beat under a chord and without a note comes
    out with a resolved chord_root and a null chord_rel_pitch. *)
Lemma chord_rel_pitch_null_on_rest :
  exists played row,
    _process_single_solo rest_solo 1 = Ok [played; row] /\
    o_chord_rel_pitch played = Some 4 /\
    o_pitch row = None /\ o_chord_root row = Some 0 /\
    o_chord_rel_pitch row = None.
Proof. do 2 eexists. split; [by vm_compute | done]. Qed.

End Witnesses.

(** * Further properties *)

(** ** Chord symbols *)

Section ParserFurther.
Import Config ChordParser Further.

Lemma rstrip_head (c : ascii) (s : string) :
  Str.is_space c = false ->
  Str.rstrip (String c s) = String c (Str.rstrip s).
Proof.
  intros Hc. cbn [Str.rstrip]. destruct (Str.rstrip s); [| done].
  by rewrite Hc.
Qed.

Lemma rstrip_rstrip (s : string) : Str.rstrip (Str.rstrip s) = Str.rstrip s.
Proof.
  induction s as [| c s IH]; [done |].
  cbn [Str.rstrip]. destruct (Str.rstrip s) as [| c' t] eqn:Ht.
  - destruct (Str.is_space c) eqn:Hc; [done |].
    cbn [Str.rstrip]. by rewrite Hc.
  - change (Str.rstrip (String c (String c' t))) with
      (match Str.rstrip (String c' t) with
       | EmptyString =>
           if Str.is_space c then EmptyString else String c EmptyString
       | u => String c u
       end).
    by rewrite IH.
Qed.

Lemma lstrip_head (s : string) :
  Str.lstrip s = EmptyString \/
  exists c t, Str.lstrip s = String c t /\ Str.is_space c = false.
Proof.
  induction s as [| c s IH]; [by left |].
  cbn [Str.lstrip]. destruct (Str.is_space c) eqn:Hc; [done |].
  right. eauto.
Qed.

Lemma strip_strip (s : string) : Str.strip (Str.strip s) = Str.strip s.
Proof.
  unfold Str.strip.
  destruct (lstrip_head s) as [-> | (c & t & -> & Hc)]; [done |].
  rewrite (rstrip_head _ _ Hc). cbn [Str.lstrip]. rewrite Hc.
  by rewrite (rstrip_head _ _ Hc), rstrip_rstrip.
Qed.

(** X1. Blanks around a chord symbol are absorbed: a symbol other than
    "NC" and the empty text parses like its stripped text, unless the
    stripped text is itself "NC" or empty (a padded "NC", a text of blanks
    only), for which the result is root 0 and quality 0, not an absent
    chord. *)
Theorem parse_chord_padding (s : string) :
  s <> "NC"%string -> s <> ""%string ->
  (Str.strip s <> "NC"%string -> Str.strip s <> ""%string ->
   parse_chord s = parse_chord (Str.strip s)) /\
  (Str.strip s = "NC"%string \/ Str.strip s = ""%string ->
   parse_chord s = Some (0, 0)).
Proof.
  intros Hnc Hempty.
  assert (Hvalid : _is_valid_chord s = true).
  { destruct (_is_valid_chord s) eqn:E; [done |].
    apply is_valid_chord_spec in E. by destruct E. }
  rewrite (parse_chord_valid _ Hvalid). split.
  - intros Hnc' Hempty'.
    assert (Hstripped : _is_valid_chord (Str.strip s) = true).
    { destruct (_is_valid_chord (Str.strip s)) eqn:E; [done |].
      apply is_valid_chord_spec in E. by destruct E. }
    rewrite (parse_chord_valid _ Hstripped). by rewrite strip_strip.
  - intros [-> | ->]; reflexivity.
Qed.

Lemma parse_chord_padding_witness :
  parse_chord "  F-7 " = parse_chord "F-7" /\
  parse_chord " NC" = Some (0, 0) /\ parse_chord "NC" = None.
Proof.
  split; [| split; [| reflexivity]].
  - apply (proj1 (parse_chord_padding "  F-7 " ltac:(done) ltac:(done)));
      done.
  - apply (proj2 (parse_chord_padding " NC" ltac:(done) ltac:(done))).
    by left.
Defined.

Lemma parse_spelled (name suf : string) (d i : nat) (cat : string)
    (sufs : list string) :
  NOTE_NAMES !! d = Some name \/ NOTE_NAMES_SHARP !! d = Some name ->
  CHORD_QUALITY_MAP !! i = Some (cat, sufs) -> suf ∈ sufs ->
  parse_chord (name ++ suf) = Some (Z.of_nat d, Z.of_nat i).
Proof.
  unfold NOTE_NAMES, NOTE_NAMES_SHARP, CHORD_QUALITY_MAP.
  intros Hname Hcat Hsuf.
  destruct i as [| [| [| [| i]]]]; simplify_eq/=;
    repeat (apply elem_of_cons in Hsuf as [-> | Hsuf]);
    try (by apply elem_of_nil in Hsuf);
    (destruct Hname as [Hname | Hname];
     do 12 (destruct d as [| d]; [by simplify_eq/= |]); done).
Qed.

Lemma parse_bare (name : string) (d : nat) :
  NOTE_NAMES !! d = Some name \/ NOTE_NAMES_SHARP !! d = Some name ->
  parse_chord name = Some (Z.of_nat d, 0).
Proof.
  unfold NOTE_NAMES, NOTE_NAMES_SHARP.
  intros [Hname | Hname];
    do 12 (destruct d as [| d]; [by simplify_eq/= |]); done.
Qed.

(** X2. Every note name of the flat-spelled or the sharp-spelled table
    parses to its position in the table with quality 0, and followed by a
    suffix listed in the quality map it parses to that position and the
    index of the suffix's category. *)
Theorem parse_chord_spelled (name : string) (d : nat) :
  NOTE_NAMES !! d = Some name \/ NOTE_NAMES_SHARP !! d = Some name ->
  parse_chord name = Some (Z.of_nat d, 0) /\
  forall i cat sufs suf,
    CHORD_QUALITY_MAP !! i = Some (cat, sufs) -> suf ∈ sufs ->
    parse_chord (name ++ suf) = Some (Z.of_nat d, Z.of_nat i).
Proof.
  intros Hname. split; [by apply parse_bare |].
  intros i cat sufs suf Hcat Hsuf. by eapply parse_spelled.
Qed.

Lemma parse_chord_spelled_witness :
  parse_chord "F#" = Some (6, 0) /\ parse_chord "F#m7b5" = Some (6, 3).
Proof.
  destruct (parse_chord_spelled "F#" 6 ltac:(by right)) as [Hbare Hsuf].
  split; [exact Hbare |].
  apply (Hsuf 3%nat "half-dim"%string ["m7b5"%string] "m7b5"%string eq_refl).
  apply list_elem_of_here.
Defined.

Lemma append_cons (c : ascii) (s t : string) :
  (String c s ++ t)%string = String c (s ++ t)%string.
Proof. reflexivity. Qed.

Lemma append_nil (t : string) : (EmptyString ++ t)%string = t.
Proof. reflexivity. Qed.

Lemma parse_accidental (c0 c1 : ascii) (q : string) :
  Str.is_space c0 = false -> Str.is_space c1 = false ->
  (Ascii.eqb c1 "#" || Ascii.eqb c1 "b")%char = true ->
  parse_chord (String c0 (String c1 q))
  = Some (root_index (String c0 (String c1 EmptyString)),
          quality_index (Str.rstrip q)).
Proof.
  intros H0 H1 Hacc.
  assert (Hvalid : _is_valid_chord (String c0 (String c1 q)) = true).
  { unfold _is_valid_chord. cbn [String.eqb].
    destruct (Ascii.eqb_spec c1 "C") as [-> | _]; [done |].
    by destruct (Ascii.eqb c0 "N"). }
  rewrite (parse_chord_valid _ Hvalid). unfold Str.strip.
  cbn [Str.lstrip]. rewrite H0, (rstrip_head _ _ H0), (rstrip_head _ _ H1).
  unfold root_token, quality_token, has_accidental.
  cbn [String.length Nat.leb String.get Str.take Str.drop andb].
  by rewrite Hacc.
Qed.

(** X3. The two spellings of a pitch class are interchangeable: the
    flat name and the sharp name at the same position of the two tables,
    followed by the same text, parse to the same root and quality. *)
Theorem parse_chord_enharmonic (d : nat) (flat sharp quality : string) :
  NOTE_NAMES !! d = Some flat -> NOTE_NAMES_SHARP !! d = Some sharp ->
  parse_chord (flat ++ quality) = parse_chord (sharp ++ quality).
Proof.
  unfold NOTE_NAMES, NOTE_NAMES_SHARP. intros Hflat Hsharp.
  do 12 (destruct d as [| d];
         [simpl in Hflat, Hsharp; simplify_eq; try reflexivity;
          rewrite !append_cons, !append_nil;
          by rewrite !parse_accidental |]).
  done.
Qed.

Lemma parse_chord_enharmonic_witness :
  parse_chord "Eb-7" = parse_chord "D#-7".
Proof. exact (parse_chord_enharmonic 3 "Eb" "D#" "-7" eq_refl eq_refl). Defined.

End ParserFurther.

(** ** Numeric helpers and the position grid *)

Section GridFurther.
Import Config Utils ChordParser Preprocessor Further.

(** X4. [safe_int] raises only on an infinite float, and then
    OverflowError; it returns an integer as it is, the default on None,
    pd.NA and NaN, and some integer on every other float and on every
    text. *)
Theorem safe_int_outcome (value : pyval) (default : Z) :
  match value with
  | PyFloat (S754_infinity _) => safe_int value default = Raise OverflowError
  | PyInt z => safe_int value default = Ok z
  | PyNone | PyNA | PyFloat S754_nan => safe_int value default = Ok default
  | _ => exists z, safe_int value default = Ok z
  end.
Proof.
  destruct value as [| | z | [s | s | | s m e] | s]; try done;
    try (by eexists).
  unfold safe_int, Py.int, Py.int_of_str. cbn [Py.isna].
  match goal with
  | |- context [match ?p with Some _ => _ | None => _ end] => destruct p
  end; by eexists.
Qed.

(** X5. [safe_divide] gives the default, without dividing, on a
    denominator 0, 0.0 or -0.0 whatever the numerator, and on a missing
    numerator or denominator (None, NaN) when the denominator is not
    pd.NA; on the denominator pd.NA the comparison with 0 raises
    TypeError. *)
Theorem safe_divide_default (numerator denominator : pyval) (default : f64) :
  (denominator = PyInt 0 \/ (exists s, denominator = PyFloat (S754_zero s)) ->
   safe_divide numerator denominator default = Ok default) /\
  (denominator <> PyNA ->
   Py.isna numerator = true \/ Py.isna denominator = true ->
   safe_divide numerator denominator default = Ok default) /\
  safe_divide numerator PyNA default = Raise TypeError.
Proof.
  split; [| split; [| done]].
  - by intros [-> | [s ->]].
  - intros Hna Hmiss. unfold safe_divide.
    assert (Hor : Py.isna numerator || Py.isna denominator = true)
      by (destruct Hmiss as [-> | ->]; by rewrite ?orb_true_r).
    destruct denominator as [| | z | y | s]; try done;
      cbn [Py.eq_zero bind]; by rewrite <- orb_assoc, Hor, orb_true_r.
Qed.

Lemma safe_divide_default_witness :
  safe_divide (PyInt 10) (PyFloat (S754_zero true)) (Float64.of_Z 1)
  = Ok (Float64.of_Z 1) /\
  safe_divide PyNone (PyInt 5) (Float64.of_Z 1) = Ok (Float64.of_Z 1).
Proof.
  split.
  - apply (proj1 (safe_divide_default (PyInt 10) (PyFloat (S754_zero true))
                    (Float64.of_Z 1))).
    right. by exists true.
  - apply (proj1 (proj2 (safe_divide_default PyNone (PyInt 5)
                           (Float64.of_Z 1)))); [done | by left].
Defined.

Lemma position_grid_offset (beat tatum division : pyval) (b t d : Z) :
  safe_int beat 1 = Ok b -> safe_int tatum 1 = Ok t ->
  safe_int division 1 = Ok d ->
  _calculate_position_grid beat tatum division
  = do offset <- tatum_offset t (if d =? 0 then 1 else d);
    Ok (clip_to_range ((b - 1) * GRID_PER_BEAT + offset) 0
          (GRID_PER_BAR - 1)).
Proof.
  intros Hb Ht Hd. unfold _calculate_position_grid, tatum_offset.
  rewrite Hb, Ht, Hd. cbn [bind].
  destruct (Py.int_truediv _ _) as [ratio |]; [| done]. cbn [bind].
  destruct (Py.mul_int _ _) as [scaled |]; [| done]. cbn [bind].
  by destruct (Py.round _).
Qed.

Lemma tatum_offset_first (division : Z) :
  division <> 0 -> tatum_offset 1 division = Ok 0.
Proof.
  intros Hd. unfold tatum_offset, Py.int_truediv.
  destruct (Z.eqb_spec division 0); [done |].
  unfold Float64.quot. change (1 - 1 =? 0) with true. cbv iota.
  by destruct (xorb _ _).
Qed.

(** X6. On the first tatum of a beat, and when the tatum is missing, the
    position is the start of the beat, [(beat - 1) * 12] clipped to 0-47,
    whatever the division (zero and missing included). *)
Theorem position_grid_on_the_beat (beat tatum division : pyval) (b d : Z) :
  safe_int beat 1 = Ok b -> safe_int tatum 1 = Ok 1 ->
  safe_int division 1 = Ok d ->
  _calculate_position_grid beat tatum division
  = Ok (clip_to_range ((b - 1) * 12) 0 47).
Proof.
  intros Hb Ht Hd. rewrite (position_grid_offset _ _ _ _ _ _ Hb Ht Hd).
  rewrite tatum_offset_first by (destruct (d =? 0) eqn:E; lia).
  cbn [bind]. unfold GRID_PER_BEAT, GRID_PER_BAR. do 2 f_equal. lia.
Qed.

Lemma position_grid_on_the_beat_witness :
  _calculate_position_grid (PyInt 3) (PyFloat S754_nan) (PyInt 0) = Ok 24.
Proof.
  exact (position_grid_on_the_beat (PyInt 3) (PyFloat S754_nan) (PyInt 0)
           3 0 eq_refl eq_refl eq_refl).
Defined.

Lemma offsets_exact_48 : offsets_exact 48 = true.
Proof. by vm_compute. Qed.

Lemma offsets_exact_spec (n : nat) (tatum division : Z) :
  offsets_exact n = true ->
  1 <= tatum <= division -> division <= Z.of_nat n ->
  tatum_offset tatum division
  = Ok (half_even (12 * (tatum - 1)) division).
Proof.
  unfold offsets_exact. intros Hall Ht Hd.
  rewrite forallb_forall in Hall.
  specialize (Hall (Z.to_nat division)).
  rewrite forallb_forall in Hall.
  specialize (Hall ltac:(apply in_seq; lia) (Z.to_nat tatum)
                ltac:(apply in_seq; lia)).
  rewrite !Z2Nat.id in Hall by lia.
  destruct (tatum_offset tatum division) as [z |]; [| done].
  apply Z.eqb_eq in Hall. by subst.
Qed.

Lemma tatum_offset_exact (tatum division : Z) :
  1 <= tatum <= division -> division <= 48 ->
  tatum_offset tatum division
  = Ok (half_even (12 * (tatum - 1)) division).
Proof.
  intros Ht Hd.
  apply (offsets_exact_spec 48); [exact offsets_exact_48 | done | lia].
Qed.

(** X7. For integer tatum and division with [1 <= tatum <= division <=
    48] the float arithmetic of the position is exact: the result is
    [(beat - 1) * 12] plus [12 * (tatum - 1) / division] rounded to the
    nearest integer, ties to even, clipped to 0-47. The offset lies in
    0-12, and in 0-11 when the division is at most 23. *)
Theorem position_grid_exact (beat tatum division : Z) :
  1 <= tatum <= division -> division <= 48 ->
  _calculate_position_grid (PyInt beat) (PyInt tatum) (PyInt division)
  = Ok (clip_to_range
          ((beat - 1) * 12 + half_even (12 * (tatum - 1)) division) 0 47)
  /\ 0 <= half_even (12 * (tatum - 1)) division <= 12
  /\ (division <= 23 -> half_even (12 * (tatum - 1)) division <= 11).
Proof.
  intros Ht Hd. split.
  - rewrite (position_grid_offset _ _ _ beat tatum division)
      by reflexivity.
    destruct (Z.eqb_spec division 0); [lia |].
    by rewrite tatum_offset_exact.
  - unfold half_even.
    assert (Hq : 0 <= 12 * (tatum - 1) / division <= 11).
    { split; [apply Z.div_pos; lia |].
      apply Z.lt_succ_r, Z.div_lt_upper_bound; lia. }
    pose proof (Z.mod_pos_bound (12 * (tatum - 1)) division ltac:(lia)).
    pose proof (Z.div_mod (12 * (tatum - 1)) division ltac:(lia)) as Hdm.
    split.
    + destruct (_ ?= _); [destruct (Z.even _) | |]; lia.
    + intros H23.
      destruct (Z.compare_spec (2 * ((12 * (tatum - 1)) mod division))
                  division) as [Heq | Hlt | Hgt];
        [destruct (Z.even _) | |]; try lia; nia.
Qed.

Lemma position_grid_exact_witness :
  _calculate_position_grid (PyInt 2) (PyInt 3) (PyInt 4) = Ok 18.
Proof.
  exact (proj1 (position_grid_exact 2 3 4 ltac:(lia) ltac:(lia))).
Defined.

(** X8. The secondary dominant of any integer root is returned with a
    root in 0-11 and quality 2; on a root in 0-11, taking it twelve times
    leads back to the root, and never does so in fewer steps. *)
Theorem secondary_dominant_circle (root : Z) :
  (exists dom,
     calculate_secondary_dominant root = Ok (dom, 2) /\ 0 <= dom <= 11) /\
  (0 <= root <= 11 ->
   dominant_chain 12 root = Ok root /\
   forall n, (0 < n < 12)%nat -> dominant_chain n root <> Ok root).
Proof.
  split.
  - eexists. split; [apply secondary_dominant_value |].
    pose proof (Z.mod_pos_bound (root + 7) 12). lia.
  - intros Hroot.
    assert (Hk : exists k, root = Z.of_nat k /\ (k < 12)%nat).
    { exists (Z.to_nat root). lia. }
    destruct Hk as (k & -> & Hk).
    do 12 (destruct k as [| k];
           [split; [reflexivity |];
            intros n Hn;
            do 12 (destruct n as [| n]; [try lia; by vm_compute |]); lia
           |]).
    lia.
Qed.

Lemma secondary_dominant_circle_witness :
  dominant_chain 12 5 = Ok 5 /\ dominant_chain 1 5 <> Ok 5.
Proof.
  destruct (proj2 (secondary_dominant_circle 5) ltac:(lia)) as [Hback Hnot].
  split; [exact Hback | apply Hnot; lia].
Defined.

End GridFurther.

(** ** The harmony columns after alignment and fill *)

Section HarmonyFurther.
Import Config ChordParser Frame Preprocessor Sweep Spec Sample Further.

Lemma Ok_inj {A} (x y : A) : Ok x = Ok y -> x = y.
Proof. by intros [= ->]. Qed.

Ltac row_at l i x H :=
  destruct (l !! i) as [x |] eqn:H; [| by vm_compute in H];
  let Hsame := fresh "Hsame" in
  assert (Hsame : Some x = l !! i) by (by rewrite H);
  vm_compute in Hsame; injection Hsame as ->.

Lemma look_tail (c : string) (rest : list string) (i : nat) :
  look (c :: rest) !! S i = look rest !! i.
Proof.
  destruct rest as [| c1 rest']; [done |].
  destruct (look (c1 :: rest')) as [| n1 ahead] eqn:E.
  { apply (f_equal length) in E. rewrite look_length in E. done. }
  by rewrite (look_cons _ _ _ _ _ E).
Qed.

(** What the backward sweep tells row [i]: the text of the first later
    row whose text differs, and its own text when there is none. *)
Lemma look_lookup (cs : list string) :
  forall (i : nat) (c n : string),
  cs !! i = Some c -> look cs !! i = Some n ->
  (forall j y,
     (i < j)%nat -> cs !! j = Some y -> y <> c ->
     (forall k x, (i < k < j)%nat -> cs !! k = Some x -> x = c) ->
     n = y) /\
  ((forall k x, (i < k)%nat -> cs !! k = Some x -> x = c) -> n = c).
Proof.
  induction cs as [| c0 rest IH]; intros i c n Hc Hn; [done |].
  destruct i as [| i].
  - injection Hc as ->.
    destruct rest as [| c1 rest'].
    + injection Hn as <-.
      split; [| done]. intros j y Hj Hy. destruct j; [lia | done].
    + destruct (look (c1 :: rest')) as [| n1 ahead] eqn:E.
      { apply (f_equal length) in E. rewrite look_length in E. done. }
      rewrite (look_cons _ _ _ _ _ E) in Hn. injection Hn as <-.
      destruct (IH 0%nat c1 n1 eq_refl eq_refl) as [IHa IHb].
      destruct (String.eqb_spec c c1) as [<- | Hne]; simpl.
      * split.
        -- intros j y Hj Hy Hyc Hbetween.
           destruct j as [| [| j]]; [lia | by injection Hy as -> |].
           apply (IHa (S j) y); [lia | done | done |].
           intros k x Hk Hx. apply (Hbetween (S k)); [lia | done].
        -- intros Hall. apply IHb.
           intros k x Hk Hx. apply (Hall (S k)); [lia | done].
      * split.
        -- intros j y Hj Hy Hyc Hbetween.
           destruct j as [| [| j]]; [lia | by injection Hy as -> |].
           exfalso. apply Hne. symmetry.
           apply (Hbetween 1%nat); [lia | done].
        -- intros Hall. exfalso. apply Hne. symmetry.
           apply (Hall 1%nat); [lia | done].
  - rewrite look_tail in Hn. simpl in Hc.
    destruct (IH i c n Hc Hn) as [IHa IHb]. split.
    + intros j y Hj Hy Hyc Hbetween. destruct j as [| j]; [lia |].
      apply (IHa j y); [lia | done | done |].
      intros k x Hk Hx. apply (Hbetween (S k)); [lia | done].
    + intros Hall. apply IHb.
      intros k x Hk Hx. apply (Hall (S k)); [lia | done].
Qed.

Lemma aligned_chords (df : list Row) : chord <$> aligned df = carried df.
Proof.
  unfold aligned. rewrite zip_announce_chords.
  - apply zip_settle_chords, carried_length.
  - rewrite look_length, length_zip_with, carried_length. lia.
Qed.

Lemma aligned_row (df : list Row) (i : nat) (r' : Row) :
  aligned df !! i = Some r' ->
  exists n c r,
    look (carried df) !! i = Some n /\ carried df !! i = Some c /\
    df !! i = Some r /\ r' = announce n (settle c r).
Proof.
  unfold aligned. intros H.
  apply lookup_zip_with_Some in H as (n & x & -> & Hn & Hx).
  apply lookup_zip_with_Some in Hx as (c & r & -> & Hc & Hr).
  by exists n, c, r.
Qed.

Lemma aligned_chord_at (df : list Row) (k : nat) (x : Row) :
  aligned df !! k = Some x -> carried df !! k = Some (chord x).
Proof.
  intros Hx. by rewrite <- aligned_chords, list_lookup_fmap, Hx.
Qed.

(** X9. After the alignment every row has a next chord: the chord text
    of the first later row whose text differs from the row's own, and the
    row's own text when no later row differs; the next root and quality
    are its parse. *)
Theorem align_chords_next_chord (df : list Row) :
  df <> [] ->
  exists out,
    _align_chords df = Ok out /\
    forall i r', out !! i = Some r' ->
      exists n,
        next_chord r' = Some n /\
        next_chord_root r' = fst <$> parse_chord n /\
        next_chord_quality r' = snd <$> parse_chord n /\
        (forall j y,
           (i < j)%nat -> out !! j = Some y -> chord y <> chord r' ->
           (forall k x, (i < k < j)%nat -> out !! k = Some x ->
                        chord x = chord r') ->
           n = chord y) /\
        ((forall k x, (i < k)%nat -> out !! k = Some x ->
                      chord x = chord r') ->
         n = chord r').
Proof.
  intros Hne. exists (aligned df).
  split; [by apply align_chords_aligned |].
  intros i r' Hr'. pose proof (aligned_chord_at df) as Hch.
  destruct (aligned_row _ _ _ Hr') as (n & c & r & Hn & Hc & Hr & ->).
  exists n. do 3 (split; [done |]).
  change (chord (announce n (settle c r))) with c.
  destruct (look_lookup _ _ _ _ Hc Hn) as [Ha Hb]. split.
  - intros j y Hj Hy Hyc Hbetween.
    apply (Ha j (chord y)); [done | by apply Hch | done |].
    intros k x Hk Hx.
    destruct (aligned df !! k) as [xr |] eqn:E.
    + rewrite (Hch _ _ E) in Hx. injection Hx as <-.
      by apply (Hbetween k).
    + apply lookup_ge_None in E. apply lookup_lt_Some in Hx.
      rewrite aligned_length in E. rewrite carried_length in Hx. lia.
  - intros Hall. apply Hb. intros k x Hk Hx.
    destruct (aligned df !! k) as [xr |] eqn:E.
    + rewrite (Hch _ _ E) in Hx. injection Hx as <-.
      by apply (Hall k).
    + apply lookup_ge_None in E. apply lookup_lt_Some in Hx.
      rewrite aligned_length in E. rewrite carried_length in Hx. lia.
Qed.

Lemma align_chords_next_chord_witness :
  exists out r',
    _align_chords sample_flat = Ok out /\ out !! 4%nat = Some r' /\
    next_chord r' = Some "F-7"%string /\
    next_chord_root r' = Some 5 /\ next_chord_quality r' = Some 1.
Proof.
  destruct (align_chords_next_chord sample_flat sample_flat_rows)
    as (out & Hrun & Hrows).
  apply (eq_trans (eq_sym sample_aligned_run)), Ok_inj in Hrun.
  subst out. row_at sample_aligned 4%nat r' Hr'.
  destruct (Hrows _ _ Hr') as (n & Hn & Hroot & Hquality & Hnext & _).
  eexists _, _. split; [exact sample_aligned_run |].
  split; [exact Hr' |].
  assert (Hval : n = "F-7"%string).
  { row_at sample_aligned 5%nat y Hy.
    apply (Hnext 5%nat _ ltac:(lia) Hy); [by vm_compute |].
    intros k x Hk Hx. lia. }
  subst n. split; [exact Hn |]. split; [exact Hroot | exact Hquality].
Defined.

Lemma pickup_real (dr dq : Z) (name : string) (r : Row) (d : nat) :
  NOTE_NAMES !! d = Some name -> real_chord (pickup dr dq name r) = true.
Proof.
  unfold NOTE_NAMES. intros H.
  do 12 (destruct d as [| d]; [by simplify_eq/= |]). done.
Qed.

(** X10. The pickup fill is idempotent: run on any table it returned, it
    returns that table unchanged. *)
Theorem fill_pickup_idempotent (df out : list Row) :
  _fill_pickup_measures df = Ok out -> _fill_pickup_measures out = Ok out.
Proof.
  intros Hrun. destruct (first_valid df) as [[| k] |] eqn:Hfv.
  - rewrite fill_pickup_first in Hrun by done. injection Hrun as <-.
    by apply fill_pickup_first.
  - destruct (proj1 (first_valid_Some _ _) Hfv) as (first_row & Hfirst).
    destruct Hfirst as (Hat & Hreal & Hbefore).
    destruct (chord_root first_row) as [root |] eqn:Hroot.
    + destruct (fill_pickup_resolved df k first_row root Hfv Hat Hroot)
        as (name & Hname & Hout).
      rewrite Hout in Hrun. injection Hrun as <-.
      apply fill_pickup_first.
      destruct df as [| r0 rest]; [done |].
      unfold first_valid. cbn [take fmap list_fmap app index_min].
      by rewrite (pickup_real _ _ _ _ _ Hname).
    + by rewrite (fill_pickup_unresolved df k first_row Hfv Hat Hroot)
        in Hrun.
  - rewrite fill_pickup_none in Hrun by done. injection Hrun as <-.
    by apply fill_pickup_none.
Qed.

Lemma fill_pickup_idempotent_witness :
  _fill_pickup_measures sample_filled = Ok sample_filled.
Proof.
  exact (fill_pickup_idempotent sample_aligned sample_filled
           sample_filled_run).
Defined.

Lemma carry_nonempty (cs : list string) :
  forall last : string,
  last <> ""%string -> Forall (fun c => c <> ""%string) (carry last cs).
Proof.
  induction cs as [| c rest IH]; intros last Hlast; [constructor |].
  cbn [carry].
  destruct (String.eqb_spec c ""); simpl; constructor; try done;
    by apply IH.
Qed.

Lemma carry_stays (cs : list string) :
  forall (last : string) (i j : nat) (c c' : string),
  (i <= j)%nat -> carry last cs !! i = Some c -> c <> ""%string ->
  carry last cs !! j = Some c' -> c' <> ""%string.
Proof.
  induction cs as [| c0 rest IH]; intros last i j c c' Hij Hc Hne Hc';
    [done |].
  cbn [carry] in Hc, Hc'.
  destruct i as [| i], j as [| j]; try lia.
  - by simplify_eq/=.
  - injection Hc as Hc. rewrite Hc in Hc'. simpl in Hc'.
    pose proof (carry_nonempty rest c Hne) as Hall.
    rewrite Forall_lookup in Hall. by apply (Hall j).
  - simpl in Hc, Hc'. eapply (IH _ i j c c'); [lia | done | done | done].
Qed.

Lemma carry_keeps (cs : list string) :
  forall (last : string) (i : nat) (c : string),
  cs !! i = Some c -> c <> ""%string -> carry last cs !! i = Some c.
Proof.
  induction cs as [| c0 rest IH]; intros last i c Hc Hne; [done |].
  cbn [carry]. destruct i as [| i].
  - injection Hc as ->. by destruct (String.eqb_spec c "").
  - simpl. by apply IH.
Qed.

Lemma real_chord_text (r : Row) :
  real_chord r = true <->
  chord r <> "NC"%string /\ chord r <> ""%string.
Proof.
  unfold real_chord.
  destruct (String.eqb_spec (chord r) "NC"),
    (String.eqb_spec (chord r) ""); simpl; intuition congruence.
Qed.

Lemma settled_null (r : Row) :
  settled r -> chord r <> ""%string ->
  (chord_root r = None <-> chord r = "NC"%string) /\
  (chord_quality r = None <-> chord r = "NC"%string).
Proof.
  intros [Hroot Hquality] Hne. rewrite Hroot, Hquality.
  destruct (String.eqb_spec (chord r) "NC") as [-> | Hnc].
  - by vm_compute.
  - rewrite parse_chord_valid.
    + split; by split.
    + destruct (_is_valid_chord (chord r)) eqn:E; [done |].
      apply is_valid_chord_spec in E. by destruct E.
Qed.

Lemma pickup_settled (root : Z) (name : string) (r : Row) :
  NOTE_NAMES !! Z.to_nat ((root + 7) mod 12) = Some name ->
  settled (pickup ((root + 7) mod 12) 2 name r).
Proof.
  intros Hname.
  pose proof (Z.mod_pos_bound (root + 7) 12 ltac:(lia)) as Hrange.
  assert (Hparse : parse_chord (name ++ "7")
                   = Some ((root + 7) mod 12, 2)).
  { rewrite (parse_spelled name "7" (Z.to_nat ((root + 7) mod 12)) 2
               "dom" ["7"; "79b"; "7913"]%string).
    - by rewrite Z2Nat.id by lia.
    - by left.
    - done.
    - apply list_elem_of_here. }
  unfold settled.
  change (chord (pickup ((root + 7) mod 12) 2 name r))
    with (name ++ "7")%string.
  by rewrite Hparse.
Qed.

(** After the alignment and the fill every row is settled, and once a
    beat has a real chord no text is empty. *)
Lemma harmony_after_fill (df : list Row) :
  df <> [] ->
  exists aligned_df out,
    _align_chords df = Ok aligned_df /\
    _fill_pickup_measures aligned_df = Ok out /\
    Forall settled out /\
    ((exists r, r ∈ df /\ real_chord r = true) ->
     forall row, row ∈ out ->
       chord row <> ""%string /\
       (chord_root row = None <-> chord row = "NC"%string) /\
       (chord_quality row = None <-> chord row = "NC"%string)).
Proof.
  intros Hne. exists (aligned df).
  pose proof (aligned_settled df) as Hsettled.
  assert (Hstay : forall i j x y,
            (i <= j)%nat -> aligned df !! i = Some x ->
            real_chord x = true -> aligned df !! j = Some y ->
            chord y <> ""%string).
  { intros i j x y Hij Hx Hreal Hy.
    apply real_chord_text in Hreal as [_ Hx_ne].
    exact (carry_stays _ _ i j _ _ Hij (aligned_chord_at _ _ _ Hx) Hx_ne
             (aligned_chord_at _ _ _ Hy)). }
  assert (Hsome : (exists r, r ∈ df /\ real_chord r = true) ->
                  first_valid (aligned df) <> None).
  { intros (r & Hin & Hreal) Hnone.
    apply list_elem_of_lookup in Hin as [i Hi].
    pose proof (real_chord_text r) as Htext.
    apply Htext in Hreal as Hparts. destruct Hparts as [Hnc Hempty].
    assert (Hc : carried df !! i = Some (chord r)).
    { apply carry_keeps; [by rewrite list_lookup_fmap, Hi | done]. }
    destruct (aligned df !! i) as [x |] eqn:Hx.
    - rewrite (aligned_chord_at _ _ _ Hx) in Hc. injection Hc as Hc.
      rewrite first_valid_None in Hnone. specialize (Hnone i x Hx).
      assert (real_chord x = true) by (apply real_chord_text; by rewrite Hc).
      congruence.
    - apply lookup_ge_None in Hx. apply lookup_lt_Some in Hi.
      rewrite aligned_length in Hx. lia. }
  assert (Hnull : forall out,
            Forall settled out ->
            (forall row, row ∈ out -> chord row <> ""%string) ->
            forall row, row ∈ out ->
              chord row <> ""%string /\
              (chord_root row = None <-> chord row = "NC"%string) /\
              (chord_quality row = None <-> chord row = "NC"%string)).
  { intros out Hs Hall row Hin. split; [by apply Hall |].
    rewrite list.Forall_forall in Hs. apply settled_null; [by apply Hs | by apply Hall]. }
  destruct (first_valid (aligned df)) as [[| k] |] eqn:Hfv.
  - exists (aligned df).
    split; [by apply align_chords_aligned |].
    split; [by apply fill_pickup_first |]. split; [done |].
    intros _. apply Hnull; [done |]. intros row Hin.
    apply list_elem_of_lookup in Hin as [j Hj].
    destruct (proj1 (first_valid_Some _ _) Hfv) as (first_row & Hfirst).
    destruct Hfirst as (Hat & Hreal & _).
    apply (Hstay 0%nat j first_row row); [lia | done | done | done].
  - destruct (proj1 (first_valid_Some _ _) Hfv) as (first_row & Hfirst).
    destruct Hfirst as (Hat & Hreal & _).
    assert (Hfirst_settled : settled first_row).
    { rewrite Forall_lookup in Hsettled. by apply (Hsettled (S k)). }
    assert (Hroot : exists root, chord_root first_row = Some root).
    { apply real_chord_text in Hreal as [Hnc Hempty].
      destruct (settled_null _ Hfirst_settled Hempty) as [Hiff _].
      destruct (chord_root first_row) as [root |]; [by eexists |].
      by destruct Hnc; apply Hiff. }
    destruct Hroot as [root Hroot].
    destruct (fill_pickup_resolved _ k first_row root Hfv Hat Hroot)
      as (name & Hname & Hout).
    eexists. split; [by apply align_chords_aligned |].
    split; [exact Hout |].
    assert (Hall : Forall settled
              ((pickup ((root + 7) mod 12) 2 name
                  <$> take (S k) (aligned df))
               ++ drop (S k) (aligned df))).
    { apply Forall_app. split; [| by apply Forall_drop].
      apply Forall_fmap, list.Forall_forall. intros r _.
      by apply pickup_settled. }
    split; [exact Hall |].
    intros _. apply Hnull; [exact Hall |]. intros row Hin.
    apply elem_of_app in Hin as [Hin | Hin].
    + apply list_elem_of_fmap in Hin as (r & -> & _).
      pose proof (pickup_real ((root + 7) mod 12) 2 name r _ Hname) as Hp.
      by apply real_chord_text in Hp as [_ Hp].
    + apply list_elem_of_lookup in Hin as [j Hj].
      rewrite lookup_drop in Hj.
      apply (Hstay (S k) (S k + j)%nat first_row row);
        [lia | done | done | done].
  - exists (aligned df).
    split; [by apply align_chords_aligned |].
    split; [by apply fill_pickup_none |]. split; [done |].
    intros Hex. by destruct (Hsome Hex).
Qed.

End HarmonyFurther.

(** ** The flattened table *)

Section FlattenFurther.
Import Config Utils ChordParser Data Frame Preprocessor Sweep Spec Sample.
Import Further.

Lemma same_beat_position (b : BeatEvent) (m : MelodyEvent) :
  same_beat b m = true <-> beat_position m = (be_bar b, be_beat b).
Proof.
  unfold same_beat, beat_position. rewrite andb_true_iff, !Z.eqb_eq.
  split; [intros [-> ->]; done | intros [= -> ->]; done].
Qed.






Lemma merge_one_elem (melody : list MelodyEvent) (b : BeatEvent)
    (bc : BeatEvent * MelodyCells) :
  bc ∈ merge_one melody b <->
  bc.1 = b /\
  ((bc.2 = no_cells /\ forall m, m ∈ melody -> same_beat b m = false) \/
   (exists m, m ∈ melody /\ same_beat b m = true /\ bc.2 = cells_of m)).
Proof.
  unfold merge_one.
  assert (Hfilter : forall m,
            m ∈ List.filter (same_beat b) melody
            <-> m ∈ melody /\ same_beat b m = true).
  { intros m. rewrite !list_elem_of_In. apply filter_In. }
  destruct (List.filter (same_beat b) melody) as [| m0 ms] eqn:E.
  - rewrite list_elem_of_singleton. split.
    + intros ->. split; [done |]. left. split; [done |].
      intros m Hm. destruct (same_beat b m) eqn:Hs; [| done].
      assert (Hin : m ∈ @nil MelodyEvent) by (by apply Hfilter).
      by apply elem_of_nil in Hin.
    + intros [Hb [[Hc _] | (m & Hm & Hs & _)]].
      * destruct bc as [b' c']. simpl in *. by subst.
      * assert (Hin : m ∈ @nil MelodyEvent) by (by apply Hfilter).
        by apply elem_of_nil in Hin.
  - rewrite list_elem_of_fmap. split.
    + intros (m & -> & Hm). apply Hfilter in Hm as [Hm Hs].
      split; [done |]. right. by exists m.
    + intros [Hb [[_ Hnone] | (m & Hm & Hs & Hc)]].
      * assert (Hin : m0 ∈ m0 :: ms) by apply list_elem_of_here.
        apply Hfilter in Hin as [Hin Hs]. rewrite Hnone in Hs; done.
      * exists m. split; [| by apply Hfilter].
        destruct bc as [b' c']. simpl in *. by subst.
Qed.

Lemma merge_left_elem (beats : list BeatEvent) (melody : list MelodyEvent)
    (bc : BeatEvent * MelodyCells) :
  bc ∈ merge_left beats melody <->
  exists b, b ∈ beats /\ bc ∈ merge_one melody b.
Proof.
  unfold merge_left. induction beats as [| b rest IH].
  - split; [by intros H%elem_of_nil |].
    by intros (b & H%elem_of_nil & _).
  - rewrite fmap_cons. simpl. rewrite elem_of_app, IH. split.
    + intros [H | (b' & Hb' & H)].
      * exists b. split; [apply list_elem_of_here | done].
      * exists b'. split; [by apply list_elem_of_further | done].
    + intros (b' & Hb' & H). apply elem_of_cons in Hb' as [-> | Hb'].
      * by left.
      * right. by exists b'.
Qed.

(** X12. The flattening is a left join on bar and beat: every row
    carries the id, bar, beat and chord of a beat event, and either the
    cells of a melody event on that bar and beat or, when no melody event
    is on it, missing cells; every melody event on the bar and beat of a
    beat event has a row. *)
Theorem flatten_join (solo_data : SoloData) (melid : Z) (df : list Row) :
  _load_and_flatten_solo solo_data melid = Ok df ->
  (forall r, r ∈ df ->
     (exists b,
        b ∈ beats solo_data /\
        (beatid r, bar r, beat r, chord r)
        = (be_beatid b, be_bar b, be_beat b, be_chord b)) /\
     ((cells r = no_cells /\
       forall m, m ∈ melody solo_data ->
         beat_position m <> (bar r, beat r)) \/
      (exists m,
         m ∈ melody solo_data /\ beat_position m = (bar r, beat r) /\
         cells r = cells_of m))) /\
  (forall b m,
     b ∈ beats solo_data -> m ∈ melody solo_data ->
     beat_position m = (be_bar b, be_beat b) ->
     exists r,
       r ∈ df /\ beatid r = be_beatid b /\ cells r = cells_of m).
Proof.
  unfold _load_and_flatten_solo.
  destruct (solo_info solo_data) as [| si rest]; [done |].
  intros [= <-]. split.
  - intros r Hr. apply list_elem_of_fmap in Hr as ([b c] & -> & Hbc).
    apply merge_left_elem in Hbc as (b' & Hb' & Hbc).
    apply merge_one_elem in Hbc as [Hb Hc]. simpl in Hb, Hc. subst b'.
    split; [by exists b |].
    destruct Hc as [[-> Hnone] | (m & Hm & Hs & ->)].
    + left. split; [done |]. intros m Hm Hpos.
      apply same_beat_position in Hpos. rewrite Hnone in Hpos; done.
    + right. exists m. split; [done |].
      split; [by apply same_beat_position | done].
  - intros b m Hb Hm Hpos. apply same_beat_position in Hpos.
    exists (flat_row si melid (b, cells_of m)).
    split; [| done]. apply list_elem_of_fmap_2, merge_left_elem.
    exists b. split; [done |]. apply merge_one_elem.
    split; [done |]. right. by exists m.
Qed.

Lemma flatten_join_witness :
  exists r,
    r ∈ sample_flat /\ beatid r = 3 /\ pitch (cells r) = Some 62.
Proof.
  destruct (flatten_join sample_solo 1 sample_flat eq_refl) as [_ Hevents].
  destruct (Hevents (beat_event 3 "") (note 2 62 1 3 3 4))
    as (r & Hin & Hid & Hcells).
  - by apply (list_elem_of_lookup_2 _ 2%nat).
  - by apply (list_elem_of_lookup_2 _ 1%nat).
  - reflexivity.
  - exists r. split; [exact Hin |]. split; [exact Hid |].
    by rewrite Hcells.
Defined.

End FlattenFurther.

(** ** The stages after the flattening *)

Section StagesFurther.
Import Config Utils ChordParser Data Frame Preprocessor Sweep Spec Sample.
Import Further.

Lemma mapM_Forall2 {X Y} (f : X -> result Y) (xs : list X) (ys : list Y) :
  mapM f xs = Ok ys <-> Forall2 (fun x y => f x = Ok y) xs ys.
Proof.
  revert ys. induction xs as [| x xs IH]; intros ys; cbn [mapM].
  - split; [intros [= <-]; constructor |].
    by intros ->%Forall2_nil_inv_l.
  - split.
    + intros H. apply bind_ok in H as (y & Hy & H).
      apply bind_ok in H as (ys' & Hys & H). injection H as <-.
      constructor; [done | by apply IH].
    + intros H. apply Forall2_cons_inv_l in H as (y & ys' & Hy & Hys & ->).
      rewrite Hy. cbn [bind]. apply IH in Hys. by rewrite Hys.
Qed.

Lemma mapM_returns {X Y} (f : X -> result Y) (xs : list X) :
  returns (mapM f xs) <-> Forall (fun x => returns (f x)) xs.
Proof.
  induction xs as [| x xs IH]; cbn [mapM].
  - split; [constructor | by exists []].
  - split.
    + intros [ys H]. apply bind_ok in H as (y & Hy & H).
      apply bind_ok in H as (ys' & Hys & _).
      constructor; [by exists y | apply IH; by exists ys'].
    + intros H. inversion H as [| ? ? [y Hy] Hrest]; subst.
      apply IH in Hrest as [ys Hys]. exists (y :: ys).
      by rewrite Hy, Hys.
Qed.

Lemma fmap_lookup_eq {A B} (f : A -> B) (l l' : list A) (i : nat) (x : A) :
  f <$> l = f <$> l' -> l !! i = Some x ->
  exists x', l' !! i = Some x' /\ f x = f x'.
Proof.
  intros Heq Hx.
  assert (H : (f <$> l') !! i = Some (f x))
    by (by rewrite <- Heq, list_lookup_fmap, Hx).
  apply list_lookup_fmap_Some in H as (x' & Hfx & Hx'). by exists x'.
Qed.

Lemma zip_settle_origin (cs : list string) (df : list Row) :
  length cs = length df -> origin <$> zip_with settle cs df = origin <$> df.
Proof.
  revert df. induction cs as [| c cs IH]; intros [| r df] Hlen;
    simpl in *; try done.
  f_equal. apply IH. lia.
Qed.

Lemma zip_announce_origin (ns : list string) (df : list Row) :
  length ns = length df ->
  origin <$> zip_with announce ns df = origin <$> df.
Proof.
  revert df. induction ns as [| n ns IH]; intros [| r df] Hlen;
    simpl in *; try done.
  f_equal. apply IH. lia.
Qed.

Lemma align_chords_origin (df out : list Row) :
  _align_chords df = Ok out -> origin <$> out = origin <$> df.
Proof.
  destruct df as [| r0 rest]; [by rewrite align_chords_empty |].
  rewrite align_chords_aligned by done. intros [= <-]. unfold aligned.
  rewrite zip_announce_origin.
  - apply zip_settle_origin, carried_length.
  - rewrite look_length, length_zip_with, carried_length. lia.
Qed.

Lemma fill_pickup_origin (df out : list Row) :
  _fill_pickup_measures df = Ok out -> origin <$> out = origin <$> df.
Proof.
  destruct (first_valid df) as [[| k] |] eqn:Hfirst.
  - rewrite (fill_pickup_first _ Hfirst). by intros [= <-].
  - destruct (proj1 (first_valid_Some _ _) Hfirst) as (first_row & Hk & _).
    destruct (chord_root first_row) as [root |] eqn:Hroot.
    + destruct (fill_pickup_resolved _ _ _ _ Hfirst Hk Hroot)
        as (name & _ & ->).
      intros [= <-]. rewrite fmap_app, <- list_fmap_compose.
      rewrite (list_fmap_ext _ origin) by done.
      by rewrite <- fmap_app, take_drop.
    + by rewrite (fill_pickup_unresolved _ _ _ Hfirst Hk Hroot).
  - rewrite (fill_pickup_none _ Hfirst). by intros [= <-].
Qed.

Lemma mapM_origin (f : Row -> result Row) (xs ys : list Row) :
  (forall x y, f x = Ok y -> origin y = origin x) ->
  mapM f xs = Ok ys -> origin <$> ys = origin <$> xs.
Proof.
  intros Hf H. apply mapM_Forall2 in H.
  induction H as [| x y xs ys Hxy _ IH]; [done |].
  rewrite !fmap_cons, IH. f_equal. by apply Hf.
Qed.

Lemma rhythmic_origin (df out : list Row) :
  _add_rhythmic_features df = Ok out -> origin <$> out = origin <$> df.
Proof.
  unfold _add_rhythmic_features. intros H.
  apply bind_ok in H as (mid & Hmid & Hout).
  apply mapM_origin in Hmid, Hout.
  - congruence.
  - intros x y Hy. apply bind_ok in Hy as (d & _ & Hy). by injection Hy as <-.
  - intros x y Hy. apply bind_ok in Hy as (p & _ & Hy). by injection Hy as <-.
Qed.

Lemma diff_fill_origin (prev : option Z) (rows : list Row) :
  origin <$> diff_fill prev rows = origin <$> rows.
Proof.
  revert prev. induction rows as [| r rows IH]; intros prev; [done |].
  cbn [diff_fill]. rewrite !fmap_cons, IH. done.
Qed.

Lemma harmonic_origin (df : list Row) :
  origin <$> _add_harmonic_features df = origin <$> df.
Proof.
  unfold _add_harmonic_features. rewrite <- list_fmap_compose.
  by apply list_fmap_ext.
Qed.

Lemma stages_origin (flat aligned_df filled rhythmic : list Row) :
  _align_chords flat = Ok aligned_df ->
  _fill_pickup_measures aligned_df = Ok filled ->
  _add_rhythmic_features filled = Ok rhythmic ->
  origin <$> rhythmic = origin <$> flat.
Proof.
  intros Ha Hf Hr. apply align_chords_origin in Ha.
  apply fill_pickup_origin in Hf. apply rhythmic_origin in Hr. congruence.
Qed.

Lemma select_source (l l' : list Row) :
  origin <$> l = origin <$> l' ->
  source_columns <$> (select_row <$> l)
  = source_columns <$> (select_row <$> l').
Proof.
  revert l'. induction l as [| r l IH]; intros [| r' l'] H; try done.
  rewrite !fmap_cons in H.
  assert (Hhead : origin r = origin r') by congruence.
  assert (Htail : origin <$> l = origin <$> l') by congruence.
  rewrite !fmap_cons, (IH l' Htail). f_equal.
  unfold origin in Hhead. injection Hhead as H1 H2 H3 H4 H5 H6 H7 H8.
  unfold source_columns, select_row. cbn.
  by rewrite H1, H2, H3, H4, H5, H6, H7, H8.
Qed.

(** X13. No stage after the flattening changes what was read from the
    database: the event, solo and beat ids, bar, beat, chorus, pitch,
    onset, duration, signature and the metadata of the output are, row by
    row and in the same order, those of the flattened table. *)
Theorem source_columns_kept (solo_data : SoloData) (melid : Z)
    (out : list OutRow) :
  _process_single_solo solo_data melid = Ok out ->
  exists flat,
    _load_and_flatten_solo solo_data melid = Ok flat /\
    source_columns <$> out
    = source_columns <$> _select_final_features flat.
Proof.
  intros H.
  apply process_single_solo_stages in H
    as (flat & aligned_df & filled & rhythmic & Hflat & Ha & Hf & Hr & ->).
  exists flat. split; [done |]. unfold _select_final_features.
  apply select_source.
  rewrite harmonic_origin. unfold _add_melodic_features.
  rewrite diff_fill_origin. by apply (stages_origin _ aligned_df filled).
Qed.

Lemma source_columns_kept_witness :
  exists flat,
    _load_and_flatten_solo sample_solo 1 = Ok flat /\
    source_columns <$> sample_out
    = source_columns <$> _select_final_features flat.
Proof. exact (source_columns_kept sample_solo 1 sample_out sample_out_run). Defined.

End StagesFurther.

(** ** The feature columns of the output *)

Section FeaturesFurther.
Import Config Utils ChordParser Data Frame Preprocessor Sweep Spec Sample.
Import Further.

Lemma rhythmic_lookup (df out : list Row) (i : nat) (r : Row) :
  _add_rhythmic_features df = Ok out -> out !! i = Some r ->
  exists x p d,
    df !! i = Some x /\
    _calculate_position_grid (PyInt (beat x)) (tatum (cells x))
      (division (cells x)) = Ok p /\
    _calculate_duration_grid (PyFloat (duration (cells x)))
      (PyFloat (beatdur (cells x))) = Ok d /\
    r = set_dur_grid (Some d) (set_pos_grid (Some p) x).
Proof.
  unfold _add_rhythmic_features. intros H Hr.
  apply bind_ok in H as (mid & Hmid & Hout).
  apply mapM_Forall2 in Hmid, Hout.
  destruct (Forall2_lookup_r _ _ _ _ _ Hout Hr) as (y & Hy & Hdur).
  destruct (Forall2_lookup_r _ _ _ _ _ Hmid Hy) as (x & Hx & Hpos).
  apply bind_ok in Hpos as (p & Hp & Hpos). injection Hpos as <-.
  apply bind_ok in Hdur as (d & Hd & Hdur). injection Hdur as <-.
  by exists x, p, d.
Qed.

Lemma diff_fill_lookup (rows : list Row) :
  forall (prev : option Z) (i : nat) (r' : Row),
  diff_fill prev rows !! i = Some r' ->
  exists r,
    rows !! i = Some r /\
    r' = set_prev_interval
           (Some (interval (pitch_before prev rows i) (pitch (cells r)))) r.
Proof.
  induction rows as [| a rows IH]; intros prev i r' H; [done |].
  cbn [diff_fill] in H. destruct i as [| i].
  - injection H as <-. by exists a.
  - destruct (IH _ _ _ H) as (r & Hr & ->). exists r. split; [done |].
    by destruct i.
Qed.

Lemma final_lookup (rhythmic : list Row) (i : nat) (row : OutRow) :
  _select_final_features
    (_add_harmonic_features (_add_melodic_features rhythmic)) !! i
  = Some row ->
  exists r,
    rhythmic !! i = Some r /\
    (o_eventid row, o_beat row, o_pitch row, o_key row)
    = (eventid (cells r), beat r, pitch (cells r), si_key (info r)) /\
    (o_pos_grid row, o_dur_grid row) = (pos_grid r, dur_grid r) /\
    o_prev_interval row
    = Some (interval (pitch_before None rhythmic i) (pitch (cells r))) /\
    o_key_center row
    = Some (default 0
              (fst <$> parse_chord
                         match rhythmic with
                         | first_row :: _ => si_key (info first_row)
                         | [] => "C"%string
                         end)) /\
    o_key_shift row = Some 0.
Proof.
  unfold _select_final_features, _add_harmonic_features,
    _add_melodic_features.
  intros H. apply list_lookup_fmap_Some in H as (h & -> & H).
  apply list_lookup_fmap_Some in H as (m & -> & H).
  apply diff_fill_lookup in H as (r & Hr & ->).
  exists r. split; [done |]. do 3 (split; [done |]). split; [| done].
  by destruct rhythmic.
Qed.

(** X14. In the output the interval of the first row is 0, and that of
    every other row is its pitch minus the pitch of the row before when
    both rows have a pitch, and 0 otherwise; it is never null. *)
Theorem prev_interval_value (solo_data : SoloData) (melid : Z)
    (out : list OutRow) :
  _process_single_solo solo_data melid = Ok out ->
  forall i row, out !! i = Some row ->
    (i = O -> o_prev_interval row = Some 0) /\
    (forall i0 before,
       i = S i0 -> out !! i0 = Some before ->
       o_prev_interval row
       = Some (interval (o_pitch before) (o_pitch row))).
Proof.
  intros H i row Hrow.
  apply process_single_solo_stages in H
    as (flat & aligned_df & filled & rhythmic & _ & _ & _ & _ & ->).
  destruct (final_lookup _ _ _ Hrow) as (r & Hr & Hsrc & _ & Hint & _).
  injection Hsrc as _ _ Hpitch _. rewrite Hint, Hpitch. split.
  - by intros ->.
  - intros i0 before -> Hbefore.
    destruct (final_lookup _ _ _ Hbefore) as (r0 & Hr0 & Hsrc0 & _).
    injection Hsrc0 as _ _ Hpitch0 _. cbn [pitch_before].
    by rewrite Hr0, Hpitch0.
Qed.

Lemma prev_interval_value_witness :
  exists before row,
    sample_out !! 1%nat = Some before /\ sample_out !! 2%nat = Some row /\
    o_prev_interval row = Some (interval (o_pitch before) (o_pitch row)).
Proof.
  destruct (sample_out !! 1%nat) as [before |] eqn:Hbefore;
    [| by vm_compute in Hbefore].
  destruct (sample_out !! 2%nat) as [row |] eqn:Hrow;
    [| by vm_compute in Hrow].
  exists before, row. split; [reflexivity |]. split; [reflexivity |].
  apply (proj2 (prev_interval_value sample_solo 1 sample_out sample_out_run
                  2%nat row Hrow) 1%nat before eq_refl Hbefore).
Defined.

Lemma flat_row_facts (solo_data : SoloData) (melid : Z) (flat : list Row)
    (r : Row) :
  _load_and_flatten_solo solo_data melid = Ok flat -> r ∈ flat ->
  (exists si rest, solo_info solo_data = si :: rest /\ info r = si) /\
  (eventid (cells r) = None -> cells r = no_cells).
Proof.
  unfold _load_and_flatten_solo.
  destruct (solo_info solo_data) as [| si rest]; [done |].
  intros [= <-] Hr. apply list_elem_of_fmap in Hr as ([b c] & -> & Hbc).
  split; [by exists si, rest |].
  apply merge_left_elem in Hbc as (b' & _ & Hbc).
  apply merge_one_elem in Hbc as [_ [[Hc _] | (m & _ & _ & Hc)]];
    simpl in Hc; subst c; [done |]. by intros [=].
Qed.

(** X15. Every row of the output has a position in 0-47 and a duration
    in 1-48, never null; a row without a melody event has the position of
    the start of its beat, [(beat - 1) * 12] clipped to 0-47, and
    duration 1. *)
Theorem grid_columns (solo_data : SoloData) (melid : Z)
    (out : list OutRow) (row : OutRow) :
  _process_single_solo solo_data melid = Ok out -> row ∈ out ->
  (exists p d,
     o_pos_grid row = Some p /\ 0 <= p <= 47 /\
     o_dur_grid row = Some d /\ 1 <= d <= 48) /\
  (o_eventid row = None ->
   o_pos_grid row = Some (clip_to_range ((o_beat row - 1) * 12) 0 47) /\
   o_dur_grid row = Some 1).
Proof.
  intros H Hrow.
  apply process_single_solo_stages in H
    as (flat & aligned_df & filled & rhythmic & Hflat & Ha & Hf & Hr & ->).
  apply list_elem_of_lookup in Hrow as [i Hrow].
  destruct (final_lookup _ _ _ Hrow) as (r & Hri & Hsrc & Hgrid & _).
  destruct (rhythmic_lookup _ _ _ _ Hr Hri) as (x & p & d & Hx & Hp & Hd & ->).
  injection Hsrc as Hid Hbeat _ _. injection Hgrid as Hpos Hdur.
  cbn in Hid, Hbeat, Hpos, Hdur. rewrite Hpos, Hdur, Hid, Hbeat.
  split.
  - exists p, d. split; [done |].
    split; [by apply position_grid_range in Hp |].
    split; [done | by apply duration_grid_range in Hd].
  - intros Hrest.
    assert (Hxo : origin <$> filled = origin <$> flat).
    { apply align_chords_origin in Ha. apply fill_pickup_origin in Hf.
      congruence. }
    destruct (fmap_lookup_eq _ _ _ _ _ Hxo Hx) as (r0 & Hr0 & Horigin).
    apply list_elem_of_lookup_2 in Hr0.
    destruct (flat_row_facts _ _ _ _ Hflat Hr0) as [_ Hno].
    unfold origin in Horigin.
    injection Horigin as _ _ Hb _ _ Hcells _ _.
    rewrite Hcells in Hrest, Hp, Hd. rewrite (Hno Hrest) in Hp, Hd.
    rewrite duration_grid_missing in Hd by (by left).
    injection Hd as <-. split; [| done].
    rewrite (position_grid_offset _ _ _ (beat x) 1 1) in Hp by reflexivity.
    rewrite tatum_offset_first in Hp by done. cbn [bind] in Hp.
    injection Hp as <-. unfold GRID_PER_BEAT, GRID_PER_BAR.
    do 2 f_equal. lia.
Qed.

Lemma grid_columns_witness :
  exists row,
    sample_out !! 0%nat = Some row /\
    o_pos_grid row = Some 0 /\ o_dur_grid row = Some 1.
Proof.
  destruct (sample_out !! 0%nat) as [row |] eqn:Hrow;
    [| by vm_compute in Hrow].
  exists row. split; [reflexivity |].
  assert (Hval : Some row = sample_out !! 0%nat) by (by rewrite Hrow).
  destruct (grid_columns sample_solo 1 sample_out row sample_out_run
              (list_elem_of_lookup_2 _ _ _ Hrow)) as [_ Hrest].
  vm_compute in Hval. injection Hval as ->. exact (Hrest eq_refl).
Defined.

(** X16. Every row of the output has the key of the solo's first
    metadata record; its key centre is the root parsed from that key
    text, 0 when the text is "NC" or empty, an integer in 0-11; its key
    shift is 0. *)
Theorem key_center_value (solo_data : SoloData) (melid : Z)
    (out : list OutRow) (row : OutRow) :
  _process_single_solo solo_data melid = Ok out -> row ∈ out ->
  (forall si rest,
     solo_info solo_data = si :: rest -> o_key row = si_key si) /\
  o_key_center row = Some (default 0 (fst <$> parse_chord (o_key row))) /\
  0 <= default 0 (fst <$> parse_chord (o_key row)) <= 11 /\
  o_key_shift row = Some 0.
Proof.
  intros H Hrow.
  apply process_single_solo_stages in H
    as (flat & aligned_df & filled & rhythmic & Hflat & Ha & Hf & Hr & ->).
  pose proof (stages_origin _ _ _ _ Ha Hf Hr) as Horigin.
  assert (Hinfo : forall i r,
            rhythmic !! i = Some r ->
            exists si rest, solo_info solo_data = si :: rest /\ info r = si).
  { intros i r Hri.
    destruct (fmap_lookup_eq _ _ _ _ _ Horigin Hri) as (r0 & Hr0 & Ho).
    apply list_elem_of_lookup_2 in Hr0.
    destruct (flat_row_facts _ _ _ _ Hflat Hr0) as [(si & rest & Hsi & Hi) _].
    exists si, rest. split; [done |].
    unfold origin in Ho. injection Ho as _ _ _ _ _ _ Hsame _. congruence. }
  apply list_elem_of_lookup in Hrow as [i Hrow].
  destruct (final_lookup _ _ _ Hrow) as (r & Hri & Hsrc & _ & _ & Hkc & Hks).
  injection Hsrc as _ _ _ Hkey.
  destruct (Hinfo _ _ Hri) as (si & rest & Hsi & Hr_info).
  assert (Hfirst : match rhythmic with
                   | first_row :: _ => si_key (info first_row)
                   | [] => "C"%string
                   end = si_key si).
  { destruct rhythmic as [| first_row others]; [done |].
    destruct (Hinfo 0%nat first_row eq_refl) as (si' & rest' & Hsi' & ->).
    congruence. }
  rewrite Hfirst in Hkc. rewrite Hkey, Hr_info.
  split; [intros si' rest' Hsi'; congruence |].
  split; [done |]. split; [| done].
  destruct (_is_valid_chord (si_key si)) eqn:Hvalid.
  - rewrite (parse_chord_valid _ Hvalid). simpl. apply root_index_range.
  - unfold parse_chord. rewrite Hvalid. simpl. lia.
Qed.

Lemma key_center_value_witness :
  exists row,
    sample_out !! 0%nat = Some row /\
    o_key row = "Bb-maj"%string /\ o_key_center row = Some 10.
Proof.
  destruct (sample_out !! 0%nat) as [row |] eqn:Hrow;
    [| by vm_compute in Hrow].
  exists row. split; [reflexivity |].
  destruct (key_center_value sample_solo 1 sample_out row sample_out_run
              (list_elem_of_lookup_2 _ _ _ Hrow))
    as (Hkey & Hcentre & _).
  specialize (Hkey sample_info [] eq_refl).
  split; [exact Hkey |]. rewrite Hcentre, Hkey. reflexivity.
Defined.

End FeaturesFurther.

(** ** The pipeline of one solo, and of the data set *)

Section ProcessFurther.
Import Config Utils ChordParser Data Frame Preprocessor Sweep Spec Sample.
Import Further Batch.

Lemma final_lookup_harmony (rhythmic : list Row) (i : nat) (row : OutRow) :
  _select_final_features
    (_add_harmonic_features (_add_melodic_features rhythmic)) !! i
  = Some row ->
  exists r,
    rhythmic !! i = Some r /\
    (o_chord row, o_chord_root row, o_chord_quality row)
    = (chord r, chord_root r, chord_quality r).
Proof.
  unfold _select_final_features, _add_harmonic_features,
    _add_melodic_features.
  intros H. apply list_lookup_fmap_Some in H as (h & -> & H).
  apply list_lookup_fmap_Some in H as (m & -> & H).
  apply diff_fill_lookup in H as (r & Hr & ->). by exists r.
Qed.

Lemma flat_has_beat (solo_data : SoloData) (melid : Z) (flat : list Row)
    (b : BeatEvent) :
  _load_and_flatten_solo solo_data melid = Ok flat ->
  b ∈ beats solo_data -> exists r, r ∈ flat /\ chord r = be_chord b.
Proof.
  unfold _load_and_flatten_solo.
  destruct (solo_info solo_data) as [| si rest]; [done |].
  intros [= <-] Hb.
  assert (Hone : exists c, (b, c) ∈ merge_one (melody solo_data) b).
  { unfold merge_one.
    destruct (List.filter (same_beat b) (melody solo_data)) as [| m ms].
    - exists no_cells. apply list_elem_of_here.
    - exists (cells_of m). rewrite fmap_cons. apply list_elem_of_here. }
  destruct Hone as [c Hc]. exists (flat_row si melid (b, c)).
  split; [| done]. apply list_elem_of_fmap_2, merge_left_elem. by exists b.
Qed.

(** X17. In the output the chord root and quality of every row are the
    parse of the row's chord text. When some beat event of the solo has a
    real chord (neither "NC" nor empty), no row has an empty chord text,
    and the root, as the quality, is null exactly on the rows whose text
    is "NC". *)
Theorem harmony_columns (solo_data : SoloData) (melid : Z)
    (out : list OutRow) (row : OutRow) :
  _process_single_solo solo_data melid = Ok out -> row ∈ out ->
  o_chord_root row = fst <$> parse_chord (o_chord row) /\
  o_chord_quality row = snd <$> parse_chord (o_chord row) /\
  ((exists b,
      b ∈ beats solo_data /\
      be_chord b <> "NC"%string /\ be_chord b <> ""%string) ->
   o_chord row <> ""%string /\
   (o_chord_root row = None <-> o_chord row = "NC"%string) /\
   (o_chord_quality row = None <-> o_chord row = "NC"%string)).
Proof.
  intros H Hrow.
  apply process_single_solo_stages in H
    as (flat & aligned_df & filled & rhythmic & Hflat & Ha & Hf & Hr & ->).
  assert (Hne : flat <> []).
  { intros ->. by rewrite align_chords_empty in Ha. }
  destruct (harmony_after_fill flat Hne)
    as (aligned_df' & filled' & Ha' & Hf' & Hsettled & Htext).
  assert (aligned_df' = aligned_df) as -> by congruence.
  assert (filled' = filled) as -> by congruence.
  apply list_elem_of_lookup in Hrow as [i Hrow].
  destruct (final_lookup_harmony _ _ _ Hrow) as (r & Hri & Hcols).
  destruct (rhythmic_lookup _ _ _ _ Hr Hri) as (x & p & d & Hx & _ & _ & ->).
  injection Hcols as -> -> ->.
  change (chord (set_dur_grid (Some d) (set_pos_grid (Some p) x)))
    with (chord x).
  change (chord_root (set_dur_grid (Some d) (set_pos_grid (Some p) x)))
    with (chord_root x).
  change (chord_quality (set_dur_grid (Some d) (set_pos_grid (Some p) x)))
    with (chord_quality x).
  rewrite Forall_lookup in Hsettled.
  destruct (Hsettled _ _ Hx) as [Hroot Hquality].
  split; [done |]. split; [done |].
  intros (b & Hb & Hnc & Hempty).
  apply Htext; [| by apply (list_elem_of_lookup_2 _ i)].
  destruct (flat_has_beat _ _ _ _ Hflat Hb) as (r0 & Hr0 & Hchord).
  exists r0. split; [done |]. apply real_chord_text. by rewrite Hchord.
Qed.

Lemma harmony_columns_witness :
  exists row,
    sample_out !! 0%nat = Some row /\
    o_chord row = "G7"%string /\ o_chord_root row = Some 7 /\
    o_chord_quality row = Some 2.
Proof.
  destruct (sample_out !! 0%nat) as [row |] eqn:Hrow;
    [| by vm_compute in Hrow].
  exists row. split; [reflexivity |].
  destruct (harmony_columns sample_solo 1 sample_out row sample_out_run
              (list_elem_of_lookup_2 _ _ _ Hrow))
    as (Hroot & Hquality & _).
  assert (Hval : Some row = sample_out !! 0%nat) by (by rewrite Hrow).
  assert (Htext : o_chord row = "G7"%string).
  { vm_compute in Hval. by injection Hval as ->. }
  split; [exact Htext |]. rewrite Hroot, Hquality, Htext.
  split; reflexivity.
Defined.

Lemma pipeline_length (flat aligned_df filled rhythmic : list Row) :
  _align_chords flat = Ok aligned_df ->
  _fill_pickup_measures aligned_df = Ok filled ->
  _add_rhythmic_features filled = Ok rhythmic ->
  length (_select_final_features
            (_add_harmonic_features (_add_melodic_features rhythmic)))
  = length flat.
Proof.
  intros Ha Hf Hr. apply align_chords_length in Ha.
  apply fill_pickup_length in Hf. apply rhythmic_length in Hr.
  unfold _select_final_features, _add_harmonic_features,
    _add_melodic_features.
  rewrite !length_fmap, diff_fill_length. congruence.
Qed.

(** X18. A solo without beat events or without a metadata record makes
    the pipeline raise IndexError; so whatever the pipeline returns has
    at least one row. *)
Theorem process_single_solo_empty (solo_data : SoloData) (melid : Z) :
  (beats solo_data = [] \/ solo_info solo_data = [] ->
   _process_single_solo solo_data melid = Raise IndexError) /\
  (forall out, _process_single_solo solo_data melid = Ok out -> out <> []).
Proof.
  split.
  - unfold _process_single_solo, _load_and_flatten_solo.
    destruct (solo_info solo_data) as [| si rest]; [done |].
    intros [Hb | Hs]; [| done]. rewrite Hb. cbn [merge_left fmap list_fmap
      concat bind]. by rewrite align_chords_empty.
  - intros out H.
    apply process_single_solo_stages in H
      as (flat & aligned_df & filled & rhythmic & _ & Ha & Hf & Hr & ->).
    intros Hnil. apply (f_equal length) in Hnil.
    rewrite (pipeline_length _ _ _ _ Ha Hf Hr) in Hnil.
    destruct flat; [by rewrite align_chords_empty in Ha | done].
Qed.

Lemma process_single_solo_empty_witness :
  _process_single_solo beatless_solo 7 = Raise IndexError.
Proof.
  apply (proj1 (process_single_solo_empty beatless_solo 7)). by left.
Defined.

Lemma fill_aligned_returns (df : list Row) :
  returns (_fill_pickup_measures (aligned df)).
Proof.
  destruct (first_valid (aligned df)) as [[| k] |] eqn:Hfv.
  - eexists. by apply fill_pickup_first.
  - destruct (proj1 (first_valid_Some _ _) Hfv) as (first_row & Hfirst).
    destruct Hfirst as (Hat & Hreal & _).
    pose proof (aligned_settled df) as Hsettled.
    rewrite Forall_lookup in Hsettled. specialize (Hsettled _ _ Hat).
    apply real_chord_text in Hreal as [Hnc Hempty].
    destruct (settled_null _ Hsettled Hempty) as [Hiff _].
    destruct (chord_root first_row) as [root |] eqn:Hroot.
    + destruct (fill_pickup_resolved _ k first_row root Hfv Hat Hroot)
        as (name & _ & Hout).
      eexists. exact Hout.
    + by destruct Hnc; apply Hiff.
  - eexists. by apply fill_pickup_none.
Qed.

(** X19. On a solo whose flattened table has a row, the pipeline
    returns if and only if the position and the duration computation
    return on every row of the flattened table: the alignment, the fill
    and the later stages never raise. *)
Theorem process_single_solo_returns (solo_data : SoloData) (melid : Z)
    (flat : list Row) :
  _load_and_flatten_solo solo_data melid = Ok flat -> flat <> [] ->
  (returns (_process_single_solo solo_data melid) <->
   forall r, r ∈ flat ->
     returns (_calculate_position_grid (PyInt (beat r)) (tatum (cells r))
                (division (cells r))) /\
     returns (_calculate_duration_grid (PyFloat (duration (cells r)))
                (PyFloat (beatdur (cells r))))).
Proof.
  intros Hflat Hne. split.
  - intros [out H] r0 Hr0.
    apply process_single_solo_stages in H
      as (flat' & aligned_df & filled & rhythmic & Hflat' & Ha & Hf & Hr & _).
    assert (flat' = flat) as -> by congruence.
    pose proof (stages_origin _ _ _ _ Ha Hf Hr) as Horigin.
    apply list_elem_of_lookup in Hr0 as [i Hr0].
    destruct (fmap_lookup_eq _ _ _ _ _ (eq_sym Horigin) Hr0)
      as (r & Hri & Ho).
    destruct (rhythmic_lookup _ _ _ _ Hr Hri)
      as (x & p & d & Hx & Hp & Hd & ->).
    unfold origin in Ho. cbn in Ho.
    injection Ho as _ _ Hbeat _ _ Hcells _ _. rewrite Hbeat, Hcells.
    split; [by exists p | by exists d].
  - intros Hgrid.
    pose proof (align_chords_aligned flat Hne) as Ha.
    destruct (fill_aligned_returns flat) as [filled Hf].
    pose proof (align_chords_origin _ _ Ha) as Hao.
    pose proof (fill_pickup_origin _ _ Hf) as Hfo.
    assert (Hfrom : forall (l : list Row) (x : Row),
              origin <$> l = origin <$> flat -> x ∈ l ->
              returns (_calculate_position_grid (PyInt (beat x))
                         (tatum (cells x)) (division (cells x))) /\
              returns (_calculate_duration_grid
                         (PyFloat (duration (cells x)))
                         (PyFloat (beatdur (cells x))))).
    { intros l x Hl Hx. apply list_elem_of_lookup in Hx as [i Hx].
      destruct (fmap_lookup_eq _ _ _ _ _ Hl Hx) as (r0 & Hr0 & Ho).
      unfold origin in Ho. injection Ho as _ _ Hbeat _ _ Hcells _ _.
      rewrite Hbeat, Hcells. apply Hgrid.
      by apply (list_elem_of_lookup_2 _ i). }
    assert (Hmid : returns
              (mapM (fun row =>
                       do pos <- _calculate_position_grid (PyInt (beat row))
                                   (tatum (cells row))
                                   (division (cells row));
                       Ok (set_pos_grid (Some pos) row)) filled)).
    { apply mapM_returns, list.Forall_forall. intros x Hx.
      destruct (Hfrom filled x ltac:(congruence) Hx) as [[p Hp] _].
      exists (set_pos_grid (Some p) x). by rewrite Hp. }
    destruct Hmid as [mid Hmid].
    assert (Hmo : origin <$> mid = origin <$> filled).
    { apply (mapM_origin _ _ _) in Hmid; [done |].
      intros x y Hy. apply bind_ok in Hy as (p & _ & Hy).
      by injection Hy as <-. }
    assert (Hout : returns
              (mapM (fun row =>
                       do dur <- _calculate_duration_grid
                                   (PyFloat (duration (cells row)))
                                   (PyFloat (beatdur (cells row)));
                       Ok (set_dur_grid (Some dur) row)) mid)).
    { apply mapM_returns, list.Forall_forall. intros y Hy.
      destruct (Hfrom mid y ltac:(congruence) Hy) as [_ [d Hd]].
      exists (set_dur_grid (Some d) y). by rewrite Hd. }
    destruct Hout as [rhythmic Hout].
    eexists. unfold _process_single_solo.
    rewrite Hflat. cbn [bind]. rewrite Ha. cbn [bind].
    rewrite Hf. cbn [bind]. unfold _add_rhythmic_features.
    rewrite Hmid. cbn [bind]. rewrite Hout. cbn [bind]. reflexivity.
Qed.

Lemma process_single_solo_returns_witness :
  returns (_process_single_solo sample_solo 1) /\
  forall r, r ∈ sample_flat ->
    returns (_calculate_position_grid (PyInt (beat r)) (tatum (cells r))
               (division (cells r))).
Proof.
  pose proof (process_single_solo_returns sample_solo 1 sample_flat
                eq_refl sample_flat_rows) as [Hgrid _].
  assert (Hrun : returns (_process_single_solo sample_solo 1))
    by (exists sample_out; exact sample_out_run).
  split; [exact Hrun |]. intros r Hr. exact (proj1 (Hgrid Hrun r Hr)).
Defined.

(** X20. [process] raises ValueError when there is no target solo; what
    it returns is the concatenation, in the order of the target ids, of
    what the pipeline returns for each solo; and when the pipeline raises
    on one target solo, [process] returns nothing. *)
Theorem process_batch (db : Database) :
  (get_target_melids db = [] -> process db = Raise ValueError) /\
  (forall out,
     process db = Ok out ->
     exists frames,
       Forall2
         (fun melid frame =>
            _process_single_solo (load_solo_data db melid) melid = Ok frame)
         (get_target_melids db) frames /\
       out = concat frames) /\
  (forall melid,
     melid ∈ get_target_melids db ->
     ~ returns (_process_single_solo (load_solo_data db melid) melid) ->
     ~ returns (process db)).
Proof.
  unfold process. split; [| split].
  - by intros ->.
  - intros out H. apply bind_ok in H as (frames & Hframes & H).
    exists frames. split; [by apply mapM_Forall2 |].
    unfold concat_frames in H. destruct frames; [done |].
    by injection H as <-.
  - intros melid Hin Hfail [out H].
    apply bind_ok in H as (frames & Hframes & _).
    assert (Hall : returns
              (mapM (fun melid =>
                       _process_single_solo (load_solo_data db melid) melid)
                 (get_target_melids db))) by (by exists frames).
    apply mapM_returns in Hall. rewrite list.Forall_forall in Hall.
    by apply Hfail, Hall.
Qed.

Lemma process_batch_witness :
  exists out frames,
    process sample_database = Ok out /\ out = concat frames /\
    length frames = 2%nat.
Proof.
  destruct (process sample_database) as [out | e] eqn:Hrun;
    [| by vm_compute in Hrun].
  destruct (proj1 (proj2 (process_batch sample_database)) out Hrun)
    as (frames & Hframes & Hout).
  exists out, frames. split; [reflexivity |]. split; [exact Hout |].
  apply Forall2_length in Hframes. by rewrite <- Hframes.
Defined.

End ProcessFurther.

(** ** One row per beat event *)

Section RowCount.
Import Config ChordParser Data Frame Preprocessor Sweep Spec Sample.
Import Further.

Lemma merge_one_joined (melody : list MelodyEvent) (b : BeatEvent) :
  NoDup (beat_position <$> melody) ->
  merge_one melody b = [(b, joined melody b)].
Proof.
  unfold merge_one, joined. induction melody as [| m rest IH]; [done |].
  intros H. rewrite fmap_cons in H.
  apply list.NoDup_cons in H as [Hfresh Hnodup]. simpl.
  destruct (same_beat b m) eqn:Hsame; [| by apply IH].
  rewrite filter_same_beat_nil; [done |].
  apply same_beat_position in Hsame. by rewrite <- Hsame.
Qed.

Lemma merge_left_joined (beats : list BeatEvent)
    (melody : list MelodyEvent) :
  NoDup (beat_position <$> melody) ->
  merge_left beats melody = (fun b => (b, joined melody b)) <$> beats.
Proof.
  intros Hnodup. unfold merge_left.
  induction beats as [| b rest IH]; [done |].
  rewrite !fmap_cons. simpl. by rewrite IH, merge_one_joined.
Qed.

Lemma Forall2_fmap_diag {A B} (P : A -> B -> Prop) (f : A -> B)
    (l : list A) :
  (forall x, P x (f x)) -> Forall2 P l (f <$> l).
Proof.
  intros Hf. induction l as [| x l IH]; [constructor |].
  rewrite fmap_cons. by constructor.
Qed.

Lemma Forall2_same_source {A} (P : A -> OutRow -> Prop) (l : list A)
    (out out' : list OutRow) :
  (forall x o o', source_columns o = source_columns o' -> P x o' -> P x o) ->
  source_columns <$> out = source_columns <$> out' ->
  Forall2 P l out' -> Forall2 P l out.
Proof.
  intros Hsame Heq H. revert out Heq.
  induction H as [| x o' l out' Hx _ IH]; intros out Heq.
  - destruct out; [constructor | done].
  - destruct out as [| o out]; [done |]. rewrite !fmap_cons in Heq.
    assert (Hhead : source_columns o = source_columns o') by congruence.
    assert (Htail : source_columns <$> out = source_columns <$> out')
      by congruence.
    constructor; [by apply (Hsame x o o') | by apply IH].
Qed.

(** C8. When no two melody events of a solo share a (bar, beat) pair,
    the rows of the flattened table are the beat events, each once and in
    their order, every one with the cells of the melody event on its bar
    and beat or with missing cells; and the rows of whatever the pipeline
    returns for the solo are again the beat events, each once and in their
    order, with the event id and pitch joined to them. No beat row is
    dropped or duplicated, and both tables have exactly as many rows as
    the solo has beat events. *)
Theorem row_count_is_beat_count (solo_data : SoloData) (melid : Z) :
  NoDup (beat_position <$> melody solo_data) ->
  (solo_info solo_data <> [] ->
   exists df,
     _load_and_flatten_solo solo_data melid = Ok df /\
     length df = length (beats solo_data) /\
     Forall2
       (fun b r =>
          row_beat_columns r = beat_columns b /\
          chord r = be_chord b /\
          cells r = joined (melody solo_data) b)
       (beats solo_data) df) /\
  (forall out,
     _process_single_solo solo_data melid = Ok out ->
     length out = length (beats solo_data) /\
     Forall2
       (fun b o =>
          out_beat_columns o = beat_columns b /\
          o_eventid o = eventid (joined (melody solo_data) b) /\
          o_pitch o = pitch (joined (melody solo_data) b))
       (beats solo_data) out).
Proof.
  intros Hnodup.
  assert (Hflat : forall si rest,
            solo_info solo_data = si :: rest ->
            _load_and_flatten_solo solo_data melid
            = Ok ((fun b =>
                     flat_row si melid (b, joined (melody solo_data) b))
                  <$> beats solo_data)).
  { intros si rest Hsi. unfold _load_and_flatten_solo. rewrite Hsi.
    by rewrite merge_left_joined, <- list_fmap_compose. }
  split.
  - intros Hinfo.
    destruct (solo_info solo_data) as [| si rest] eqn:Hsi; [done |].
    eexists. split; [by apply (Hflat si rest) |].
    split; [by rewrite length_fmap |].
    by apply Forall2_fmap_diag.
  - intros out Hout.
    apply process_single_solo_stages in Hout
      as (flat & aligned_df & filled & rhythmic
          & Hrun & Haligned & Hfilled & Hrhythmic & ->).
    assert (Hrows :
      Forall2
        (fun b o =>
           out_beat_columns o = beat_columns b /\
           o_eventid o = eventid (joined (melody solo_data) b) /\
           o_pitch o = pitch (joined (melody solo_data) b))
        (beats solo_data)
        (_select_final_features
           (_add_harmonic_features (_add_melodic_features rhythmic)))).
    { destruct (solo_info solo_data) as [| si rest] eqn:Hsi.
      { unfold _load_and_flatten_solo in Hrun. by rewrite Hsi in Hrun. }
      rewrite (Hflat si rest eq_refl) in Hrun. injection Hrun as <-.
      apply (Forall2_same_source _ _ _
               (select_row
                  <$> ((fun b =>
                          flat_row si melid
                            (b, joined (melody solo_data) b))
                       <$> beats solo_data))).
      - intros b o o' Hsame (Hbeat & Hid & Hpitch).
        unfold source_columns in Hsame.
        injection Hsame as H1 H2 H3 H4 H5 H6 H7 H8 H9 H10 H11 H12 H13 H14 H15.
        unfold out_beat_columns in *. split; [| split]; congruence.
      - unfold _select_final_features. apply select_source.
        rewrite harmonic_origin. unfold _add_melodic_features.
        rewrite diff_fill_origin.
        by apply (stages_origin _ aligned_df filled).
      - rewrite <- list_fmap_compose. by apply Forall2_fmap_diag. }
    split; [| exact Hrows].
    symmetry. by apply Forall2_length in Hrows.
Qed.

(** The sample has eight beat events and three notes: eight rows, the
    fourth of them the fourth beat event. *)
Lemma row_count_is_beat_count_witness :
  exists row,
    length sample_out = 8%nat /\ sample_out !! 3%nat = Some row /\
    o_beatid row = 4 /\ o_eventid row = None.
Proof.
  destruct (row_count_is_beat_count sample_solo 1 sample_melody_distinct)
    as [_ Hrows].
  destruct (Hrows sample_out sample_out_run) as [Hlen Hbeats].
  destruct (Forall2_lookup_l _ _ _ 3%nat (beat_event 4 "C7") Hbeats eq_refl)
    as (row & Hrow & Hcols & Hid & _).
  exists row. split; [exact Hlen |]. split; [exact Hrow |].
  split; [| exact Hid].
  unfold out_beat_columns in Hcols. by injection Hcols as -> _ _ _ _.
Defined.

End RowCount.
